(** * Proxy probing, proxy selection and archive extraction

    A shallow embedding of [proxy.go] ([isProxyAvailable],
    [findAvailableProxy]) and of the extraction loop of [updateFrontend]
    in [main.go].

    The two proxy functions start goroutines that talk over a buffered
    channel and a [sync.WaitGroup].  Each of them is embedded as a thread
    pool with an executable one-step function: a scheduler picks the
    thread that moves next, and the theorems quantify over every
    schedule. *)

From stdpp Require Import base option list strings gmap.
From Stdlib Require Import ZArith Ascii.

Local Open Scope Z_scope.
Local Open Scope nat_scope.

(** ** Weighted counting over a thread pool *)

Section Total.
Context {A : Type}.

Fixpoint total (f : A -> nat) (l : list A) : nat :=
  match l with
  | [] => 0
  | x :: l' => f x + total f l'
  end.

Lemma total_app f l k : total f (l ++ k) = total f l + total f k.
Proof. induction l as [|a l IH]; simpl; [reflexivity | lia]. Qed.

Lemma total_insert f l i x y :
  l !! i = Some x -> total f (<[i:=y]> l) + f x = total f l + f y.
Proof.
  revert i. induction l as [|a l IH]; intros [|i] H; simpl in *; try discriminate.
  - injection H as ->. lia.
  - specialize (IH i H). lia.
Qed.

Lemma total_zero f l : total f l = 0 -> forall x, x ∈ l -> f x = 0.
Proof.
  induction l as [|a l IH]; intros H x Hx.
  - inversion Hx.
  - simpl in H. inversion Hx; subst.
    + lia.
    + apply IH; [lia | assumption].
Qed.

Lemma total_pos f l x : x ∈ l -> 0 < f x -> 0 < total f l.
Proof.
  intros Hx Hf. destruct (total f l) eqn:E; [|lia].
  pose proof (total_zero f l E x Hx). lia.
Qed.

Lemma total_le_length f l : (forall x, f x <= 1) -> total f l <= length l.
Proof.
  intros Hf. induction l as [|a l IH]; simpl; [lia|].
  specialize (Hf a). lia.
Qed.

Lemma total_all_one f l : (forall x, x ∈ l -> f x = 1) -> total f l = length l.
Proof.
  induction l as [|a l IH]; intros Hf; simpl; [reflexivity|].
  rewrite (Hf a) by constructor. rewrite IH; [reflexivity|].
  intros x Hx. apply Hf. now constructor.
Qed.

Lemma total_exists f l : 0 < total f l -> exists i x, l !! i = Some x /\ 0 < f x.
Proof.
  induction l as [|a l IH]; simpl; intros H; [lia|].
  destruct (f a) eqn:E.
  - destruct IH as (i & x & Hi & Hx); [lia|]. exists (S i), x. split; assumption.
  - exists 0, a. split; [reflexivity | lia].
Qed.

Lemma total_lt_length f l x :
  (forall y, f y <= 1) -> x ∈ l -> f x = 0 -> total f l < length l.
Proof.
  intros Hf Hx E. induction l as [|a l IH]; [inversion Hx|].
  simpl. pose proof (total_le_length f l Hf).
  inversion Hx; subst.
  - lia.
  - specialize (IH ltac:(assumption)). specialize (Hf a). lia.
Qed.
End Total.

(** ** The prober: [isProxyAvailable] (proxy.go, lines 12-64) *)

Module Prober.

(** [http.StatusOK] and [http.StatusNoContent]. *)
Definition StatusOK : Z := 200%Z.
Definition StatusNoContent : Z := 204%Z.

(** The anonymous struct of [testURLs] (lines 27-30). *)
Record testURL := TestURL { url : string; expectCode : Z }.

(** The probe targets (lines 31-32). *)
Definition testURLs : list testURL :=
  [ TestURL "https://www.google.com/generate_204" StatusNoContent;
    TestURL "https://raw.githubusercontent.com/github/gitignore/main/Go.gitignore" StatusOK ].

(** What [client.Get] hands back: an error, or a response with its
    status code. *)
Inductive response := Err | Resp (StatusCode : Z).

(** Program counter of the goroutine started at line 41. *)
Inductive gpc :=
| PGet                (* line 43: client.Get(target) not yet issued *)
| PSend (b : bool)    (* line 45 or 49: results <- b still to do *)
| PDone               (* the deferred wg.Done() still to run *)
| PExit.

(** A goroutine: the closure's arguments and where it stands. *)
Record goroutine := Goroutine { target : string; expect : Z; pc : gpc }.

(** Program counter of the function body itself. *)
Inductive mstate :=
| MParse                          (* line 13 *)
| MSpawn (rest : list testURL)    (* loop of lines 39-51 *)
| MWait                           (* line 54: wg.Wait() *)
| MClose                          (* line 55: close(results) *)
| MRange                          (* lines 58-62 *)
| MReturn (b : bool).

Inductive tid := Main | Go (i : nat).

Section Machine.
(** [*url.URL], [url.Parse], and the behaviour of the network seen
    through a client whose transport uses the given proxy. *)
Variable URL : Type.
Variable url_Parse : string -> option URL.
Variable Get : URL -> string -> response.

(** The configured targets; [testURLs] in the program. *)
Variable targets : list testURL.

Record state := State {
  main : mstate;
  client : option URL;           (* set once the address has parsed *)
  pool : list goroutine;
  wg : nat;                      (* counter of the WaitGroup *)
  results : list bool;           (* buffer of the channel, oldest first *)
  closed : bool;
  requests : list string;        (* GET requests issued so far *)
  collected : list (string * bool)  (* outcomes sent on the channel so far *)
}.

Definition set_main (m : mstate) (s : state) : state :=
  State m (client s) (pool s) (wg s) (results s) (closed s) (requests s) (collected s).

Definition init : state := State MParse None [] 0 [] false [] [].

(** Lines 43-49: the outcome of one probe. *)
Definition outcome (u : URL) (tgt : string) (exp : Z) : bool :=
  match Get u tgt with
  | Err => false
  | Resp code => (code =? exp)%Z
  end.

(** One step of the function body. [wg.Wait] and the receive on an
    empty, open channel block: no step. *)
Definition step_main (proxy : string) (s : state) : option state :=
  match main s with
  | MParse =>
      match url_Parse proxy with
      | None => Some (set_main (MReturn false) s)
      | Some u =>
          Some (State (MSpawn targets) (Some u) (pool s) (wg s) (results s)
                      (closed s) (requests s) (collected s))
      end
  | MSpawn [] => Some (set_main MWait s)
  | MSpawn (t :: rest) =>
      Some (State (MSpawn rest) (client s)
                  (pool s ++ [Goroutine (url t) (expectCode t) PGet])
                  (S (wg s)) (results s) (closed s) (requests s) (collected s))
  | MWait => if wg s =? 0 then Some (set_main MClose s) else None
  | MClose =>
      Some (State MRange (client s) (pool s) (wg s) (results s) true
                  (requests s) (collected s))
  | MRange =>
      match results s with
      | ok :: rest =>
          Some (State (if ok then MRange else MReturn false) (client s) (pool s)
                      (wg s) rest (closed s) (requests s) (collected s))
      | [] => if closed s then Some (set_main (MReturn true) s) else None
      end
  | MReturn _ => None
  end.

(** One step of goroutine [i]. The send blocks while the buffer is
    full, and is a panic on a closed channel; [wg.Done] is a panic when the
    counter is zero: no step in these cases. *)
Definition step_go (i : nat) (s : state) : option state :=
  match pool s !! i with
  | Some (Goroutine tgt exp PGet) =>
      match client s with
      | Some u =>
          Some (State (main s) (client s)
                      (<[i := Goroutine tgt exp (PSend (outcome u tgt exp))]> (pool s))
                      (wg s) (results s) (closed s)
                      (requests s ++ [tgt]) (collected s))
      | None => None
      end
  | Some (Goroutine tgt exp (PSend b)) =>
      if (length (results s) <? length targets) && negb (closed s) then
        Some (State (main s) (client s)
                    (<[i := Goroutine tgt exp PDone]> (pool s))
                    (wg s) (results s ++ [b]) (closed s)
                    (requests s) (collected s ++ [(tgt, b)]))
      else None
  | Some (Goroutine tgt exp PDone) =>
      match wg s with
      | S n =>
          Some (State (main s) (client s)
                      (<[i := Goroutine tgt exp PExit]> (pool s))
                      n (results s) (closed s) (requests s) (collected s))
      | 0 => None
      end
  | _ => None
  end.

Definition step (proxy : string) (t : tid) (s : state) : option state :=
  match t with
  | Main => step_main proxy s
  | Go i => step_go i s
  end.

(** A schedule names the thread that moves at each step. *)
Fixpoint run (proxy : string) (sched : list tid) (s : state) : option state :=
  match sched with
  | [] => Some s
  | t :: sched' =>
      match step proxy t s with
      | Some s' => run proxy sched' s'
      | None => None
      end
  end.

Definition returned (s : state) : option bool :=
  match main s with MReturn b => Some b | _ => None end.

(** The schedule-free reading of the function: the address parses
    and every target answers with its expected code. *)
Definition verdict (proxy : string) : bool :=
  match url_Parse proxy with
  | None => false
  | Some u => forallb (fun t => outcome u (url t) (expectCode t)) targets
  end.

(** A fixed scheduler: the body moves whenever it can, otherwise the
    first goroutine that can. *)
Fixpoint first_go (s : state) (i n : nat) : option state :=
  match n with
  | 0 => None
  | S n' =>
      match step_go i s with
      | Some s' => Some s'
      | None => first_go s (S i) n'
      end
  end.

Definition sched_step (proxy : string) (s : state) : option state :=
  match step_main proxy s with
  | Some s' => Some s'
  | None => first_go s 0 (length (pool s))
  end.

Fixpoint exec (proxy : string) (fuel : nat) (s : state) : state :=
  match fuel with
  | 0 => s
  | S fuel' =>
      match returned s, sched_step proxy s with
      | None, Some s' => exec proxy fuel' s'
      | _, _ => s
      end
  end.

(** Steps any run can still take: the termination measure. *)
Definition gweight (g : goroutine) : nat :=
  match pc g with PGet => 4 | PSend _ => 3 | PDone => 1 | PExit => 0 end.

Definition mweight (m : mstate) : nat :=
  match m with
  | MParse => 5 * length targets + 5
  | MSpawn rest => 5 * length rest + 4
  | MWait => 3
  | MClose => 2
  | MRange => 1
  | MReturn _ => 0
  end.

Definition measure (s : state) : nat :=
  mweight (main s) + total gweight (pool s) + length (results s).

(** [isProxyAvailable], run under the fixed scheduler. *)
Definition isProxyAvailable (proxy : string) : bool :=
  match returned (exec proxy (measure init) init) with
  | Some b => b
  | None => false
  end.


(** *** Invariant of the runs of a parsed address *)

Definition live (g : goroutine) : nat :=
  match pc g with PExit => 0 | _ => 1 end.
Definition sent (g : goroutine) : nat :=
  match pc g with PDone | PExit => 1 | _ => 0 end.
Definition asked (g : goroutine) : nat :=
  match pc g with PGet => 0 | _ => 1 end.

Definition spec (g : goroutine) : testURL := TestURL (target g) (expect g).
Definition todo (m : mstate) : list testURL :=
  match m with MSpawn rest => rest | _ => [] end.
Definition quiet (m : mstate) : bool :=
  match m with MClose | MRange | MReturn _ => true | _ => false end.

Definition out (u : URL) (g : goroutine) : bool := outcome u (target g) (expect g).

Definition good (u : URL) (rq : list string) (co : list (string * bool))
    (g : goroutine) : Prop :=
  (forall b, pc g = PSend b -> b = out u g)
  /\ (pc g <> PGet -> target g ∈ rq)
  /\ (sent g = 1 -> (target g, out u g) ∈ co).

Definition drained (s : state) (consumed : list bool) : Prop :=
  (collected s).*2 = consumed ++ results s
  /\ match main s with
     | MReturn b => b = forallb id consumed /\ (b = true -> results s = [])
     | _ => forallb id consumed = true
     end.

Record Inv (u : URL) (s : state) : Prop := {
  i_client : client s = Some u;
  i_main : main s <> MParse;
  i_spawn : (spec <$> pool s) ++ todo (main s) = targets;
  i_wg : wg s = total live (pool s);
  i_quiet : quiet (main s) = true -> wg s = 0;
  i_closed : closed s = true -> quiet (main s) = true;
  i_range : main s = MRange -> closed s = true;
  i_pool : Forall (good u (requests s) (collected s)) (pool s);
  i_reqlen : length (requests s) = total asked (pool s);
  i_collen : length (collected s) = total sent (pool s);
  i_reqfrom : Forall (fun x => exists t, t ∈ targets /\ x = url t) (requests s);
  i_colfrom :
    Forall (fun xb => exists t, t ∈ targets
              /\ xb = (url t, outcome u (url t) (expectCode t))) (collected s);
  i_results : exists consumed, drained s consumed
}.

Definition start (u : URL) : state :=
  State (MSpawn targets) (Some u) [] 0 [] false [] [].

Lemma Inv_start u : Inv u (start u).
Proof.
  split; simpl; try done.
  - exists []. split; simpl; done.
Qed.

Lemma good_mono u rq rq' co co' g :
  rq ⊆ rq' -> co ⊆ co' -> good u rq co g -> good u rq' co' g.
Proof.
  intros Hr Hc (H1 & H2 & H3). split; [exact H1|]. split.
  - intros H. apply Hr, H2, H.
  - intros H. apply Hc, H3, H.
Qed.

Lemma spec_in_targets u s g : Inv u s -> g ∈ pool s -> spec g ∈ targets.
Proof.
  intros I Hg. rewrite <- (i_spawn u s I). apply elem_of_app. left.
  now apply list_elem_of_fmap_2.
Qed.

Lemma Inv_step_main proxy u s s' :
  Inv u s -> step_main proxy s = Some s' -> Inv u s'.
Proof.
  intros I H. destruct I as [Ic Im Is Iw Iq Icl Irg Ip Irl Icn Irf Icf [consumed [Id1 Id2]]].
  unfold step_main, set_main in H.
  destruct s as [m c pl w rs cl rq co]; simpl in *.
  destruct m as [|[|t rest]| | | |b]; simpl in *; try done.
  - (* end of the loop *)
    injection H as <-. split; simpl; try done.
    exists consumed. split; done.
  - (* one more goroutine *)
    injection H as <-. split; simpl; try done.
    + rewrite fmap_app, <- app_assoc. simpl. destruct t; exact Is.
    + rewrite total_app. simpl. lia.
    + apply Forall_app. split; [exact Ip|].
      apply Forall_singleton. repeat split; simpl; done.
    + rewrite total_app. simpl. lia.
    + rewrite total_app. simpl. lia.
    + exists consumed. split; done.
  - (* wg.Wait returns *)
    destruct (w =? 0) eqn:E; [|done]. apply Nat.eqb_eq in E.
    injection H as <-. split; simpl; try done.
    exists consumed. split; done.
  - (* close *)
    injection H as <-. split; simpl; try done.
    exists consumed. split; done.
  - (* range *)
    destruct rs as [|ok rest].
    + destruct cl; [|done]. injection H as <-. split; simpl; try done.
      exists consumed. split; simpl; [done|]. split; [now rewrite Id2 | done].
    + injection H as <-.
      assert (Hd : co.*2 = (consumed ++ [ok]) ++ rest)
        by (rewrite <- app_assoc; exact Id1).
      destruct ok; split; simpl; try done.
      * exists (consumed ++ [true]). split; simpl; [done|].
        rewrite forallb_app, Id2. done.
      * exists (consumed ++ [false]). split; simpl; [done|].
        rewrite forallb_app, Id2. done.
Qed.

Lemma spec_insert (pl : list goroutine) i g g' :
  pl !! i = Some g -> spec g' = spec g -> spec <$> <[i:=g']> pl = spec <$> pl.
Proof.
  intros Hi E. rewrite list_fmap_insert, E. apply list_insert_id.
  rewrite list_lookup_fmap, Hi. reflexivity.
Qed.

Lemma busy_not_quiet u s i g :
  Inv u s -> pool s !! i = Some g -> live g = 1 -> quiet (main s) = false.
Proof.
  intros I Hi Hl. destruct (quiet (main s)) eqn:E; [|reflexivity].
  pose proof (i_quiet u s I E) as Hw. rewrite (i_wg u s I) in Hw.
  pose proof (total_zero live _ Hw g (list_elem_of_lookup_2 _ _ _ Hi)). lia.
Qed.

Lemma Inv_step_go u s s' i :
  Inv u s -> step_go i s = Some s' -> Inv u s'.
Proof.
  intros I H. unfold step_go in H.
  destruct (pool s !! i) as [[tgt exp p]|] eqn:Hi; [|done].
  assert (Hin : Goroutine tgt exp p ∈ pool s) by (eapply list_elem_of_lookup_2; eauto).
  assert (Ht : TestURL tgt exp ∈ targets) by (apply (spec_in_targets u s _ I Hin)).
  destruct p as [|b| |]; [| | |done].
  - (* client.Get *)
    pose proof (busy_not_quiet u s i _ I Hi eq_refl) as Hq.
    destruct I as [Ic Im Is Iw Iq Icl Irg Ip Irl Icn Irf Icf [consumed [Id1 Id2]]].
    destruct s as [m c pl w rs cl rq co]; simpl in *. subst c.
    injection H as <-. split; simpl; try done.
    + erewrite spec_insert; eauto.
    + pose proof (total_insert live pl i _ (Goroutine tgt exp (PSend (outcome u tgt exp))) Hi).
      unfold live in *. simpl in *. lia.
    + apply Forall_insert.
      * eapply Forall_impl; [exact Ip|]. intros g. apply good_mono; [|done].
        intros x Hx. apply elem_of_app. now left.
      * repeat split; simpl; try done.
        -- intros b [= <-]. reflexivity.
        -- intros _. apply elem_of_app. right. now apply list_elem_of_singleton.
    + pose proof (total_insert asked pl i _ (Goroutine tgt exp (PSend (outcome u tgt exp))) Hi).
      rewrite length_app. unfold asked in *. simpl in *. lia.
    + pose proof (total_insert sent pl i _ (Goroutine tgt exp (PSend (outcome u tgt exp))) Hi).
      unfold sent in *. simpl in *. lia.
    + apply Forall_app. split; [exact Irf|]. apply Forall_singleton.
      exists (TestURL tgt exp). split; done.
    + exists consumed. split; simpl; done.
  - (* results <- b *)
    pose proof (busy_not_quiet u s i _ I Hi eq_refl) as Hq.
    destruct I as [Ic Im Is Iw Iq Icl Irg Ip Irl Icn Irf Icf [consumed [Id1 Id2]]].
    destruct s as [m c pl w rs cl rq co]; simpl in *.
    destruct ((length rs <? length targets) && negb cl) eqn:G; [|done].
    pose proof (proj1 (Forall_forall _ _) Ip _ Hin) as (Hb & Hr & _). simpl in *.
    specialize (Hb b eq_refl). specialize (Hr ltac:(done)). unfold out in Hb. simpl in Hb.
    injection H as <-. split; simpl; try done.
    + erewrite spec_insert; eauto.
    + pose proof (total_insert live pl i _ (Goroutine tgt exp PDone) Hi).
      unfold live in *. simpl in *. lia.
    + apply Forall_insert.
      * eapply Forall_impl; [exact Ip|]. intros g. apply good_mono; [done|].
        intros x Hx. apply elem_of_app. now left.
      * repeat split; simpl; try done.
        intros _. apply elem_of_app. right. apply list_elem_of_singleton.
        unfold out. simpl. now rewrite Hb.
    + pose proof (total_insert asked pl i _ (Goroutine tgt exp PDone) Hi).
      unfold asked in *. simpl in *. lia.
    + pose proof (total_insert sent pl i _ (Goroutine tgt exp PDone) Hi).
      rewrite length_app. unfold sent in *. simpl in *. lia.
    + apply Forall_app. split; [exact Icf|]. apply Forall_singleton.
      exists (TestURL tgt exp). split; [done|]. simpl. now rewrite Hb.
    + exists consumed. split; simpl.
      * rewrite fmap_app, Id1, <- app_assoc. reflexivity.
      * destruct m; simpl in *; done.
  - (* wg.Done *)
    pose proof (busy_not_quiet u s i _ I Hi eq_refl) as Hq.
    destruct I as [Ic Im Is Iw Iq Icl Irg Ip Irl Icn Irf Icf [consumed [Id1 Id2]]].
    destruct s as [m c pl w rs cl rq co]; simpl in *.
    destruct w as [|n]; [done|].
    pose proof (proj1 (Forall_forall _ _) Ip _ Hin) as (_ & Hr & Hc). simpl in *.
    injection H as <-. split; simpl; try done.
    + erewrite spec_insert; eauto.
    + pose proof (total_insert live pl i _ (Goroutine tgt exp PExit) Hi).
      unfold live in *. simpl in *. lia.
    + rewrite Hq. done.
    + apply Forall_insert; [exact Ip|]. repeat split; simpl; try done.
      intros _. now apply Hr.
    + pose proof (total_insert asked pl i _ (Goroutine tgt exp PExit) Hi).
      unfold asked in *. simpl in *. lia.
    + pose proof (total_insert sent pl i _ (Goroutine tgt exp PExit) Hi).
      unfold sent in *. simpl in *. lia.
    + exists consumed. split; simpl; done.
Qed.

Lemma Inv_step proxy u s s' t :
  Inv u s -> step proxy t s = Some s' -> Inv u s'.
Proof.
  destruct t; simpl; eauto using Inv_step_main, Inv_step_go.
Qed.

Lemma Inv_run proxy u sched : forall s s',
  Inv u s -> run proxy sched s = Some s' -> Inv u s'.
Proof.
  induction sched as [|t sched IH]; simpl; intros s s' I H.
  - now injection H as <-.
  - destruct (step proxy t s) as [s1|] eqn:E; [|done].
    eapply IH; [|exact H]. eapply Inv_step; eauto.
Qed.

Lemma run_app proxy sched1 sched2 s :
  run proxy (sched1 ++ sched2) s =
  match run proxy sched1 s with
  | Some s1 => run proxy sched2 s1
  | None => None
  end.
Proof.
  revert s. induction sched1 as [|t sched1 IH]; simpl; intros s; [reflexivity|].
  destruct (step proxy t s); [apply IH | reflexivity].
Qed.

(** What a run from [init] can reach. *)
Definition rejected : state := set_main (MReturn false) init.

Lemma run_init proxy sched s :
  run proxy sched init = Some s ->
  (sched = [] /\ s = init)
  \/ (url_Parse proxy = None /\ sched = [Main] /\ s = rejected)
  \/ (exists u, url_Parse proxy = Some u /\ Inv u s).
Proof.
  destruct sched as [|t sched]; simpl.
  - intros [= <-]. now left.
  - destruct t as [|i]; simpl; [|done].
    unfold step_main. simpl. destruct (url_Parse proxy) as [u|] eqn:E.
    + intros H. right. right. exists u. split; [reflexivity|].
      eapply Inv_run; [|exact H]. apply Inv_start.
    + intros H. right. left. split; [reflexivity|].
      destruct sched as [|t sched]; simpl in H.
      * now injection H as <-.
      * destruct t; simpl in H; done.
Qed.

(** Every step uses up the measure: no run is longer than
    [measure init]. *)
Lemma step_measure proxy t s s' :
  step proxy t s = Some s' -> measure s' < measure s.
Proof.
  destruct s as [m c pl w rs cl rq co]. destruct t as [|i]; simpl.
  - unfold step_main, set_main, measure. simpl.
    destruct m as [|[|t rest]| | | |b]; simpl; try done.
    + destruct (url_Parse proxy); intros [= <-]; simpl; lia.
    + intros [= <-]; simpl; lia.
    + intros [= <-]; simpl. rewrite total_app. simpl. lia.
    + destruct (w =? 0); [|done]. intros [= <-]; simpl; lia.
    + intros [= <-]; simpl; lia.
    + destruct rs as [|[] rest].
      * destruct cl; [|done]. intros [= <-]; simpl; lia.
      * intros [= <-]; simpl; lia.
      * intros [= <-]; simpl; lia.
  - unfold step_go, measure. simpl.
    destruct (pl !! i) as [[tgt exp p]|] eqn:Hi; [|done].
    destruct p as [|b| |]; [| | |done].
    + destruct c as [u|]; [|done]. intros [= <-]; simpl.
      pose proof (total_insert gweight pl i _
                    (Goroutine tgt exp (PSend (outcome u tgt exp))) Hi) as T.
      unfold gweight in *. simpl in *. lia.
    + destruct ((length rs <? length targets) && negb cl); [|done].
      intros [= <-]; simpl.
      pose proof (total_insert gweight pl i _ (Goroutine tgt exp PDone) Hi) as T.
      rewrite length_app. unfold gweight in *. simpl in *. lia.
    + destruct w as [|n]; [done|]. intros [= <-]; simpl.
      pose proof (total_insert gweight pl i _ (Goroutine tgt exp PExit) Hi) as T.
      unfold gweight in *. simpl in *. lia.
Qed.

Lemma run_measure proxy sched : forall s s',
  run proxy sched s = Some s' -> length sched + measure s' <= measure s.
Proof.
  induction sched as [|t sched IH]; simpl; intros s s' H.
  - injection H as <-. lia.
  - destruct (step proxy t s) as [s1|] eqn:E; [|done].
    pose proof (step_measure _ _ _ _ E). specialize (IH _ _ H). lia.
Qed.

(** Until the body has returned some thread can move: the send never
    finds the buffer full or the channel closed, [wg.Done] never
    finds the counter at zero, and [wg.Wait] is released once every
    goroutine is gone. *)
Lemma Inv_progress proxy u s :
  Inv u s -> returned s = None -> exists t s', step proxy t s = Some s'.
Proof.
  intros I R. pose proof I as I0.
  destruct I as [Ic Im Is Iw Iq Icl Irg Ip Irl Icn Irf Icf [consumed [Id1 Id2]]].
  destruct s as [m c pl w rs cl rq co]; simpl in *.
  unfold returned in R. simpl in R.
  destruct m as [|[|t rest]| | | |b]; simpl in *; try done.
  - exists Main. simpl. unfold step_main. simpl. eauto.
  - exists Main. simpl. unfold step_main. simpl. eauto.
  - destruct w as [|n].
    + exists Main. simpl. unfold step_main. simpl. eauto.
    + destruct (total_exists live pl) as (i & g & Hi & Hg); [lia|].
      assert (Hin : g ∈ pl) by (eapply list_elem_of_lookup_2; eauto).
      exists (Go i). simpl. unfold step_go. simpl. rewrite Hi.
      destruct g as [tgt exp p]. destruct p as [|b| |].
      * subst c. eauto.
      * assert (Hcl : cl = false) by (destruct cl; [specialize (Icl eq_refl)|]; done).
        assert (Hlen : length rs < length targets).
        { assert (length rs <= length co).
          { rewrite <- (length_fmap snd co), Id1, length_app. lia. }
          pose proof (total_lt_length sent pl _ ltac:(intros [? ? []]; unfold sent; simpl; lia)
                        Hin eq_refl).
          rewrite <- Is, length_app, length_fmap. lia. }
        apply Nat.ltb_lt in Hlen. rewrite Hlen, Hcl. simpl. eauto.
      * eauto.
      * unfold live in Hg. simpl in Hg. lia.
  - exists Main. simpl. unfold step_main. simpl. eauto.
  - exists Main. simpl. unfold step_main. simpl.
    destruct rs as [|ok rest]; [|eauto].
    rewrite (Irg eq_refl). eauto.
Qed.

(** At the return every goroutine has run to its end, and the
    channel has received one outcome per target. *)
Lemma Inv_joined u s b :
  Inv u s -> main s = MReturn b ->
  (forall g, g ∈ pool s -> pc g = PExit)
  /\ spec <$> pool s = targets
  /\ length (requests s) = length targets
  /\ length (collected s) = length targets
  /\ (forall t, t ∈ targets ->
        url t ∈ requests s
        /\ (url t, outcome u (url t) (expectCode t)) ∈ collected s).
Proof.
  intros I Hm.
  assert (Hexit : forall g, g ∈ pool s -> pc g = PExit).
  { intros g Hg. pose proof (i_quiet u s I) as Hq. rewrite Hm in Hq.
    specialize (Hq eq_refl). rewrite (i_wg u s I) in Hq.
    pose proof (total_zero live _ Hq g Hg) as Hl.
    unfold live in Hl. destruct (pc g); done. }
  assert (Hsp : spec <$> pool s = targets).
  { pose proof (i_spawn u s I) as Hs. rewrite Hm in Hs. simpl in Hs.
    now rewrite app_nil_r in Hs. }
  assert (Hlen : length (pool s) = length targets).
  { now rewrite <- Hsp, length_fmap. }
  split; [exact Hexit|]. split; [exact Hsp|]. split; [|split].
  - rewrite (i_reqlen u s I), <- Hlen. apply total_all_one.
    intros g Hg. unfold asked. now rewrite (Hexit g Hg).
  - rewrite (i_collen u s I), <- Hlen. apply total_all_one.
    intros g Hg. unfold sent. now rewrite (Hexit g Hg).
  - intros t Ht. rewrite <- Hsp in Ht.
    apply list_elem_of_fmap in Ht as (g & -> & Hg).
    pose proof (proj1 (Forall_forall _ _) (i_pool u s I) g Hg) as (_ & Hr & Hc).
    specialize (Hexit g Hg). split.
    + apply Hr. now rewrite Hexit.
    + apply Hc. unfold sent. now rewrite Hexit.
Qed.

Lemma forallb_id_false (l : list bool) : forallb id l = false -> false ∈ l.
Proof.
  induction l as [|[] l IH]; simpl; intros H; [done| |].
  - right. now apply IH.
  - now left.
Qed.

Lemma forallb_id_true (l : list bool) x : forallb id l = true -> x ∈ l -> x = true.
Proof.
  induction l as [|a l IH]; simpl; intros H Hx; [inversion Hx|].
  apply andb_true_iff in H as [Ha Hl].
  inversion Hx; subst; [done | now apply IH].
Qed.

(** The value returned is the conjunction of the outcomes, whatever
    order the goroutines sent them in. *)
Lemma Inv_verdict u s b :
  Inv u s -> main s = MReturn b ->
  b = forallb (fun t => outcome u (url t) (expectCode t)) targets.
Proof.
  intros I Hm. pose proof (Inv_joined u s b I Hm) as (_ & _ & _ & _ & Hall).
  destruct (i_results u s I) as [consumed [Hd1 Hd2]]. rewrite Hm in Hd2.
  destruct Hd2 as [Hb Hnil]. destruct b.
  - symmetry. apply forallb_forall. intros t Ht.
    apply list_elem_of_In in Ht. destruct (Hall t Ht) as [_ Hc].
    rewrite (Hnil eq_refl), app_nil_r in Hd1.
    apply (forallb_id_true consumed); [done|]. rewrite <- Hd1.
    apply list_elem_of_fmap. eexists. split; [|exact Hc]. reflexivity.
  - symmetry. apply not_true_is_false. intros Hf.
    symmetry in Hb. apply forallb_id_false in Hb.
    assert (Hin : false ∈ (collected s).*2).
    { rewrite Hd1. apply elem_of_app. now left. }
    apply list_elem_of_fmap in Hin as ([x c] & Hc & Hxc). simpl in Hc. subst c.
    pose proof (proj1 (Forall_forall _ _) (i_colfrom u s I) _ Hxc) as (t & Ht & E).
    injection E as -> E.
    rewrite forallb_forall in Hf. apply list_elem_of_In in Ht.
    specialize (Hf t Ht). simpl in Hf. congruence.
Qed.

(** *** The fixed scheduler returns *)

Lemma first_go_Some s : forall n i s',
  first_go s i n = Some s' -> exists j, step_go j s = Some s'.
Proof.
  induction n as [|n IH]; simpl; intros i s' H; [done|].
  destruct (step_go i s) eqn:E; [injection H as <-; eauto | eauto].
Qed.

Lemma first_go_None s : forall n i j,
  first_go s i n = None -> i <= j < i + n -> step_go j s = None.
Proof.
  induction n as [|n IH]; simpl; intros i j H Hj; [lia|].
  destruct (step_go i s) eqn:E; [done|].
  destruct (decide (i = j)) as [->|]; [exact E|].
  apply (IH (S i)); [exact H | lia].
Qed.

Lemma sched_step_Some proxy s s' :
  sched_step proxy s = Some s' -> exists t, step proxy t s = Some s'.
Proof.
  unfold sched_step. destruct (step_main proxy s) eqn:E.
  - intros [= <-]. now exists Main.
  - intros H. apply first_go_Some in H as [j H]. now exists (Go j).
Qed.

Lemma sched_step_None proxy s t :
  sched_step proxy s = None -> step proxy t s = None.
Proof.
  unfold sched_step. destruct (step_main proxy s) eqn:E; [done|].
  intros H. destruct t as [|j]; simpl; [exact E|].
  destruct (decide (j < length (pool s))).
  - apply (first_go_None s _ 0 j H). lia.
  - unfold step_go. rewrite (lookup_ge_None_2 (pool s) j); [done | lia].
Qed.

Definition Reach (proxy : string) (s : state) : Prop :=
  exists sched, run proxy sched init = Some s.

Lemma Reach_init proxy : Reach proxy init.
Proof. now exists []. Qed.

Lemma Reach_step proxy s t s' :
  Reach proxy s -> step proxy t s = Some s' -> Reach proxy s'.
Proof.
  intros [sched H] E. exists (sched ++ [t]).
  rewrite run_app, H. simpl. now rewrite E.
Qed.

Lemma Reach_progress proxy s :
  Reach proxy s -> returned s = None -> exists t s', step proxy t s = Some s'.
Proof.
  intros [sched H] R. apply run_init in H as [[_ ->]|[(_ & _ & ->)|(u & _ & I)]].
  - exists Main. simpl. unfold step_main. simpl.
    destruct (url_Parse proxy); eauto.
  - done.
  - eapply Inv_progress; eauto.
Qed.

Lemma exec_Reach proxy : forall fuel s,
  Reach proxy s -> Reach proxy (exec proxy fuel s).
Proof.
  induction fuel as [|fuel IH]; simpl; intros s R; [exact R|].
  destruct (returned s); [exact R|].
  destruct (sched_step proxy s) as [s'|] eqn:E; [|exact R].
  apply IH. apply sched_step_Some in E as [t E]. eapply Reach_step; eauto.
Qed.

Lemma exec_returned proxy : forall fuel s,
  Reach proxy s -> measure s <= fuel ->
  exists b, returned (exec proxy fuel s) = Some b.
Proof.
  induction fuel as [|fuel IH]; simpl; intros s R Hm.
  - destruct (returned s) as [b|] eqn:E; [eauto|].
    destruct (Reach_progress proxy s R E) as (t & s' & Hs).
    apply step_measure in Hs. lia.
  - destruct (returned s) as [b|] eqn:E; [rewrite E; eauto|].
    destruct (sched_step proxy s) as [s'|] eqn:E'.
    + pose proof E' as E2. apply sched_step_Some in E2 as [t E2].
      apply IH; [eapply Reach_step; eauto|].
      apply step_measure in E2. lia.
    + destruct (Reach_progress proxy s R E) as (t & s' & Hs).
      rewrite (sched_step_None proxy s t E') in Hs. done.
Qed.

(** Every run that returns, returns [verdict]. *)
Lemma run_verdict proxy sched s b :
  run proxy sched init = Some s -> returned s = Some b -> b = verdict proxy.
Proof.
  intros H R. unfold returned in R.
  destruct (main s) as [| | | | |b'] eqn:Hm; try done. injection R as ->.
  unfold verdict.
  apply run_init in H as [[_ ->]|[(E & _ & ->)|(u & E & I)]].
  - done.
  - rewrite E. simpl in Hm. now injection Hm as <-.
  - rewrite E. eapply Inv_verdict; eauto.
Qed.

Lemma isProxyAvailable_verdict proxy : isProxyAvailable proxy = verdict proxy.
Proof.
  unfold isProxyAvailable.
  destruct (exec_returned proxy (measure init) init (Reach_init proxy) (le_n _))
    as [b Hb].
  rewrite Hb. destruct (exec_Reach proxy (measure init) init (Reach_init proxy))
    as [sched H].
  eapply run_verdict; eauto.
Qed.

(** Every run can be carried on until the body returns. *)
Lemma run_returns proxy sched s :
  run proxy sched init = Some s ->
  exists sched' s', run proxy (sched ++ sched') init = Some s'
                    /\ returned s' = Some (verdict proxy).
Proof.
  intros H.
  assert (R : Reach proxy s) by (now exists sched).
  destruct (exec_returned proxy (measure s) s R (le_n _)) as [b Hb].
  destruct (exec_Reach proxy (measure s) s R) as [sched2 H2].
  assert (G : forall fuel s0, exists k, run proxy k s0 = Some (exec proxy fuel s0)).
  { clear. induction fuel as [|fuel IH]; simpl; intros s0; [now exists []|].
    destruct (returned s0); [now exists []|].
    destruct (sched_step proxy s0) as [s1|] eqn:E; [|now exists []].
    apply sched_step_Some in E as [t E]. destruct (IH s1) as [k Hk].
    exists (t :: k). simpl. now rewrite E. }
  destruct (G (measure s) s) as [k Hk].
  exists k, (exec proxy (measure s) s). split.
  - rewrite run_app, H. exact Hk.
  - rewrite Hb. f_equal. eapply (run_verdict proxy (sched ++ k)); [|exact Hb].
    rewrite run_app, H. exact Hk.
Qed.

(** With distinct target URLs the requests of a finished call are the
    targets, each once. *)
Lemma Inv_requests u s b :
  NoDup (url <$> targets) -> Inv u s -> main s = MReturn b ->
  requests s ≡ₚ url <$> targets.
Proof.
  intros Hnd I Hm. destruct (Inv_joined u s b I Hm) as (_ & _ & Hlen & _ & Hall).
  symmetry. apply submseteq_length_Permutation.
  - apply NoDup_submseteq; [exact Hnd|]. intros x Hx.
    apply list_elem_of_fmap in Hx as (t & -> & Ht). now apply Hall.
  - rewrite length_fmap. lia.
Qed.

Lemma outcome_true u tgt exp : outcome u tgt exp = true <-> Get u tgt = Resp exp.
Proof.
  unfold outcome. destruct (Get u tgt) as [|code]; [done|].
  rewrite Z.eqb_eq. split; [now intros -> | now intros [= ->]].
Qed.

Lemma verdict_true proxy :
  verdict proxy = true <->
  exists u, url_Parse proxy = Some u
            /\ forall t, t ∈ targets -> Get u (url t) = Resp (expectCode t).
Proof.
  unfold verdict. destruct (url_Parse proxy) as [u|].
  - rewrite forallb_forall. split.
    + intros H. exists u. split; [reflexivity|]. intros t Ht.
      apply outcome_true, H. now apply list_elem_of_In.
    + intros (u' & [= <-] & H) t Ht. apply outcome_true, H. now apply list_elem_of_In.
  - split; [done|]. intros (u & E & _). done.
Qed.

End Machine.

Arguments main {URL}.
Arguments client {URL}.
Arguments pool {URL}.
Arguments wg {URL}.
Arguments results {URL}.
Arguments closed {URL}.
Arguments requests {URL}.
Arguments collected {URL}.
Arguments returned {URL}.

(** The host of an absolute URL: what stands between "://" and the next
    "/". *)
Fixpoint upto_slash (s : string) : string :=
  match s with
  | EmptyString => EmptyString
  | String c s' => if Ascii.eqb c "/" then EmptyString else String c (upto_slash s')
  end.

Fixpoint host (s : string) : string :=
  match s with
  | String ":" (String "/" (String "/" s')) => upto_slash s'
  | String _ s' => host s'
  | EmptyString => EmptyString
  end.

End Prober.


(** ** The selector: [findAvailableProxy] (proxy.go, lines 67-101)

    A call of [isProxyAvailable] is one step of its caller here: the
    prober shares nothing with the selector but the network, and by
    [Prober.run_verdict] what it returns does not depend on how its own
    goroutines interleave.  The goroutines of the candidates, the
    goroutine that closes the channel and the body of the function are
    interleaved freely; they go on running after the body has returned. *)

Module Selector.

(** Where [isProxyAvailable] is called from: line 69, or line 81 inside
    the goroutine of the candidate with the given index. *)
Inductive site := Preferred | Candidate (i : nat).

(** Program counter of the goroutine started at line 79. *)
Inductive cpc :=
| CProbe     (* line 81: isProxyAvailable(p) not yet called *)
| CSelect    (* lines 82-85: the probe succeeded, the select is still to run *)
| CDone      (* the deferred wg.Done() still to run *)
| CExit.

Record candidate := Cand { p : string; pc : cpc }.

(** The goroutine of lines 91-94. *)
Inductive wstate := WNone | WWait | WClose | WExit.

(** Program counter of the function body. *)
Inductive mstate :=
| MPreferred                     (* line 69 *)
| MSpawn (rest : list string)    (* loop of lines 77-88, then line 91 *)
| MRecv                          (* line 97 *)
| MReturn (r : string).

Inductive tid := Main | Go (i : nat) | Waiter.

Record state := State {
  main : mstate;
  pool : list candidate;
  waiter : wstate;
  wg : nat;
  resultCh : list string;        (* buffer of the channel, capacity 1 *)
  closed : bool;
  probes : list (site * string)  (* calls of isProxyAvailable so far *)
}.

Definition init : state := State MPreferred [] WNone 0 [] false [].

Definition returned (s : state) : option string :=
  match main s with MReturn r => Some r | _ => None end.

Section Machine.
(** The prober, as the selector calls it. *)
Variable isProxyAvailable : string -> bool.
Variable configProxy : string.
Variable candidates : list string.

(** Step 1 succeeds: the preferred address is not empty and is available. *)
Definition wins : bool := negb (String.eqb configProxy "") && isProxyAvailable configProxy.

(** One step of the function body. The receive blocks while the buffer
    is empty and the channel open. *)
Definition step_main (s : state) : option state :=
  match main s with
  | MPreferred =>
      if String.eqb configProxy "" then
        Some (State (MSpawn candidates) (pool s) (waiter s) (wg s) (resultCh s)
                    (closed s) (probes s))
      else
        Some (State (if isProxyAvailable configProxy
                     then MReturn configProxy else MSpawn candidates)
                    (pool s) (waiter s) (wg s) (resultCh s) (closed s)
                    (probes s ++ [(Preferred, configProxy)]))
  | MSpawn (c :: rest) =>
      Some (State (MSpawn rest) (pool s ++ [Cand c CProbe]) (waiter s) (S (wg s))
                  (resultCh s) (closed s) (probes s))
  | MSpawn [] =>
      Some (State MRecv (pool s) WWait (wg s) (resultCh s) (closed s) (probes s))
  | MRecv =>
      match resultCh s with
      | proxy :: rest =>
          Some (State (MReturn proxy) (pool s) (waiter s) (wg s) rest (closed s) (probes s))
      | [] =>
          if closed s then
            Some (State (MReturn "") (pool s) (waiter s) (wg s) [] (closed s) (probes s))
          else None
      end
  | MReturn _ => None
  end.

(** One step of the goroutine of candidate [i]. The select sends when
    the buffer has room and falls to its default otherwise; on a closed
    channel the send is a panic, as is [wg.Done] at zero: no step. *)
Definition step_go (i : nat) (s : state) : option state :=
  match pool s !! i with
  | Some (Cand c CProbe) =>
      Some (State (main s)
                  (<[i := Cand c (if isProxyAvailable c then CSelect else CDone)]> (pool s))
                  (waiter s) (wg s) (resultCh s) (closed s)
                  (probes s ++ [(Candidate i, c)]))
  | Some (Cand c CSelect) =>
      if closed s then None
      else
        Some (State (main s) (<[i := Cand c CDone]> (pool s)) (waiter s) (wg s)
                    (if length (resultCh s) <? 1 then resultCh s ++ [c] else resultCh s)
                    (closed s) (probes s))
  | Some (Cand c CDone) =>
      match wg s with
      | S n =>
          Some (State (main s) (<[i := Cand c CExit]> (pool s)) (waiter s) n
                      (resultCh s) (closed s) (probes s))
      | 0 => None
      end
  | _ => None
  end.

(** One step of the goroutine that closes the channel. *)
Definition step_waiter (s : state) : option state :=
  match waiter s with
  | WWait =>
      if wg s =? 0 then
        Some (State (main s) (pool s) WClose (wg s) (resultCh s) (closed s) (probes s))
      else None
  | WClose =>
      Some (State (main s) (pool s) WExit (wg s) (resultCh s) true (probes s))
  | _ => None
  end.

Definition step (t : tid) (s : state) : option state :=
  match t with
  | Main => step_main s
  | Go i => step_go i s
  | Waiter => step_waiter s
  end.

Fixpoint run (sched : list tid) (s : state) : option state :=
  match sched with
  | [] => Some s
  | t :: sched' =>
      match step t s with
      | Some s' => run sched' s'
      | None => None
      end
  end.

(** A fixed scheduler: the body first, then the candidates in order,
    then the closing goroutine. *)
Fixpoint first_go (s : state) (i n : nat) : option state :=
  match n with
  | 0 => None
  | S n' =>
      match step_go i s with
      | Some s' => Some s'
      | None => first_go s (S i) n'
      end
  end.

Definition sched_step (s : state) : option state :=
  match step_main s with
  | Some s' => Some s'
  | None =>
      match first_go s 0 (length (pool s)) with
      | Some s' => Some s'
      | None => step_waiter s
      end
  end.

Fixpoint exec (fuel : nat) (s : state) : state :=
  match fuel with
  | 0 => s
  | S fuel' =>
      match returned s, sched_step s with
      | None, Some s' => exec fuel' s'
      | _, _ => s
      end
  end.

Definition cweight (g : candidate) : nat :=
  match pc g with CProbe => 3 | CSelect => 2 | CDone => 1 | CExit => 0 end.

Definition wweight (w : wstate) : nat :=
  match w with WWait => 2 | WClose => 1 | _ => 0 end.

Definition mweight (m : mstate) : nat :=
  match m with
  | MPreferred => 4 * length candidates + 5
  | MSpawn rest => 4 * length rest + 4
  | MRecv => 1
  | MReturn _ => 0
  end.

Definition measure (s : state) : nat :=
  mweight (main s) + total cweight (pool s) + wweight (waiter s).

(** [findAvailableProxy], run under the fixed scheduler. *)
Definition findAvailableProxy : string :=
  match returned (exec (measure init) init) with
  | Some r => r
  | None => ""
  end.

(** *** Invariant of the candidate race *)

Definition live (g : candidate) : nat :=
  match pc g with CExit => 0 | _ => 1 end.
Definition todo (m : mstate) : list string :=
  match m with MSpawn rest => rest | _ => [] end.
Definition spawning (m : mstate) : bool :=
  match m with MSpawn _ => true | _ => false end.
Definition past_select (c : cpc) : bool :=
  match c with CDone | CExit => true | _ => false end.

(** A candidate's goroutine has called the prober on [v]. *)
Definition tried (log : list (site * string)) (v : string) : Prop :=
  exists i, (Candidate i, v) ∈ log.

Definition winner (log : list (site * string)) (v : string) : Prop :=
  v ∈ candidates /\ isProxyAvailable v = true /\ tried log v.

(** Some available candidate has reached the channel or the caller. *)
Definition served (s : state) : Prop :=
  resultCh s <> [] \/ exists r, main s = MReturn r /\ winner (probes s) r.

Definition good (log : list (site * string)) (Q : Prop) (g : candidate) : Prop :=
  (pc g = CSelect -> isProxyAvailable (p g) = true)
  /\ (pc g <> CProbe -> tried log (p g))
  /\ (isProxyAvailable (p g) = true -> past_select (pc g) = true -> Q).

Record SInv (pre : list (site * string)) (s : state) : Prop := {
  j_main : main s <> MPreferred;
  j_spawn : (p <$> pool s) ++ todo (main s) = candidates;
  j_wg : wg s = total live (pool s);
  j_wnone : waiter s = WNone -> spawning (main s) = true;
  j_wsome : spawning (main s) = true -> waiter s = WNone;
  j_wclose : waiter s = WClose \/ waiter s = WExit -> wg s = 0;
  j_closed : closed s = true -> waiter s = WExit;
  j_wexit : waiter s = WExit -> closed s = true;
  j_pool : Forall (good (probes s) (served s)) (pool s);
  j_buf : Forall (winner (probes s)) (resultCh s);
  j_ret : forall r, main s = MReturn r ->
            winner (probes s) r
            \/ (r = "" /\ forall c, c ∈ candidates -> isProxyAvailable c = false);
  j_log : Forall (fun e => e ∈ pre \/ exists i c, e = (Candidate i, c)
                                          /\ candidates !! i = Some c) (probes s)
}.

Lemma tried_mono log log' v : log ⊆ log' -> tried log v -> tried log' v.
Proof. intros H [i Hi]. exists i. now apply H. Qed.

Lemma winner_mono log log' v : log ⊆ log' -> winner log v -> winner log' v.
Proof. intros H (A & B & C). repeat split; eauto using tried_mono. Qed.

Lemma good_impl log log' (Q Q' : Prop) g :
  log ⊆ log' -> (Q -> Q') -> good log Q g -> good log' Q' g.
Proof.
  intros Hl HQ (A & B & C). repeat split; eauto using tried_mono.
Qed.

Lemma sel_lookup_candidate pre s i g :
  SInv pre s -> pool s !! i = Some g -> candidates !! i = Some (p g).
Proof.
  intros I Hi. rewrite <- (j_spawn pre s I).
  rewrite lookup_app_l.
  - rewrite list_lookup_fmap, Hi. reflexivity.
  - rewrite length_fmap. eapply lookup_lt_Some; eauto.
Qed.

Lemma sel_pool_insert (pl : list candidate) i g g' :
  pl !! i = Some g -> p g' = p g -> p <$> <[i:=g']> pl = p <$> pl.
Proof.
  intros Hi E. rewrite list_fmap_insert, E. apply list_insert_id.
  rewrite list_lookup_fmap, Hi. reflexivity.
Qed.

Lemma sel_busy pre s i g :
  SInv pre s -> pool s !! i = Some g -> live g = 1 ->
  0 < wg s /\ closed s = false /\ waiter s <> WClose /\ waiter s <> WExit.
Proof.
  intros I Hi Hl.
  assert (Hw : 0 < wg s).
  { rewrite (j_wg pre s I). eapply total_pos.
    - eapply list_elem_of_lookup_2; eauto.
    - lia. }
  split; [exact Hw|].
  assert (Hc : waiter s <> WClose /\ waiter s <> WExit).
  { split; intros E; pose proof (j_wclose pre s I) as H; rewrite E in H;
      (assert (wg s = 0) by (apply H; auto)); lia. }
  split; [|exact Hc].
  destruct (closed s) eqn:E; [|reflexivity].
  destruct Hc as [_ Hc]. exfalso. apply Hc. now apply (j_closed pre s I).
Qed.

Lemma SInv_step_main pre s s' :
  SInv pre s -> step_main s = Some s' -> SInv pre s'.
Proof.
  intros I H. pose proof I as I0.
  destruct I as [Jm Js Jw Jn1 Jn2 Jc Jcl Jx Jp Jb Jr Jl].
  unfold step_main in H.
  destruct s as [m pl w n rc cl lg]; simpl in *.
  destruct m as [|[|c rest]| |r]; simpl in *; try done.
  - (* the loop is over: start the closing goroutine *)
    injection H as <-. specialize (Jn2 eq_refl). subst w.
    split; simpl; try done.
    + intros [E|E]; done.
    + intros E. specialize (Jcl E). done.
    + eapply Forall_impl; [exact Jp|]. intros g. apply good_impl; [done|].
      intros [Q|(r & Q & _)]; [now left | done].
  - (* one more goroutine *)
    injection H as <-. split; simpl; try done.
    + rewrite fmap_app, <- app_assoc. exact Js.
    + rewrite total_app. simpl. lia.
    + intros E. specialize (Jn2 eq_refl). subst w. destruct E; done.
    + apply Forall_app. split.
      * eapply Forall_impl; [exact Jp|]. intros g. apply good_impl; [done|].
        intros [Q|(r & Q & _)]; [now left | done].
      * apply Forall_singleton. repeat split; simpl; done.
  - (* receive *)
    destruct rc as [|v rest].
    + destruct cl; [|done]. injection H as <-. split; simpl; try done.
      * eapply Forall_impl; [exact Jp|]. intros g. apply good_impl; [done|].
        intros [Q|(r & Q & _)]; done.
      * intros r [= <-]. right. split; [reflexivity|].
        intros c Hc. destruct (isProxyAvailable c) eqn:E; [|reflexivity]. exfalso.
        rewrite app_nil_r in Js. rewrite <- Js in Hc.
        apply list_elem_of_fmap in Hc as (g & -> & Hg).
        assert (Hx : pc g = CExit).
        { specialize (Jcl eq_refl). assert (W : n = 0) by (apply Jc; auto).
          rewrite Jw in W. pose proof (total_zero live _ W g Hg) as Hl.
          unfold live in Hl. destruct (pc g); done. }
        pose proof (proj1 (Forall_forall _ _) Jp g Hg) as (_ & _ & Hq).
        rewrite Hx in Hq. destruct (Hq E eq_refl) as [Q|(r & Q & _)]; done.
    + injection H as <-. apply Forall_cons in Jb as [Hv Jb].
      split; simpl; try done.
      * eapply Forall_impl; [exact Jp|]. intros g. apply good_impl; [done|].
        intros _. right. exists v. split; [reflexivity | exact Hv].
      * intros r [= <-]. now left.
Qed.

Lemma SInv_step_waiter pre s s' :
  SInv pre s -> step_waiter s = Some s' -> SInv pre s'.
Proof.
  intros I H.
  destruct I as [Jm Js Jw Jn1 Jn2 Jc Jcl Jx Jp Jb Jr Jl].
  unfold step_waiter in H.
  destruct s as [m pl w n rc cl lg]; simpl in *.
  destruct w; try done.
  - destruct (n =? 0) eqn:E; [|done]. apply Nat.eqb_eq in E.
    injection H as <-. split; simpl; try done.
    + intros Hm. specialize (Jn2 Hm). done.
    + intros Hc. specialize (Jcl Hc). done.
  - injection H as <-. split; simpl; try done.
    + intros Hm. specialize (Jn2 Hm). done.
    + intros _. apply Jc. now left.
Qed.

Lemma SInv_step_go pre s s' i :
  SInv pre s -> step_go i s = Some s' -> SInv pre s'.
Proof.
  intros I H. unfold step_go in H.
  destruct (pool s !! i) as [[c k]|] eqn:Hi; [|done].
  assert (Hin : Cand c k ∈ pool s) by (eapply list_elem_of_lookup_2; eauto).
  pose proof (sel_lookup_candidate pre s i _ I Hi) as Hcand. simpl in Hcand.
  assert (Hc : c ∈ candidates) by (eapply list_elem_of_lookup_2; eauto).
  destruct k; [| | |done].
  - (* the probe *)
    destruct I as [Jm Js Jw Jn1 Jn2 Jc Jcl Jx Jp Jb Jr Jl].
    destruct s as [m pl w n rc cl lg]; simpl in *.
    injection H as <-.
    set (g' := Cand c (if isProxyAvailable c then CSelect else CDone)).
    assert (Hsub : lg ⊆ lg ++ [(Candidate i, c)])
      by (intros x Hx; apply elem_of_app; now left).
    split; simpl; try done.
    + erewrite sel_pool_insert; eauto.
    + pose proof (total_insert live pl i _ g' Hi) as T.
      subst g'. unfold live in *. simpl in *. destruct (isProxyAvailable c); simpl in *; lia.
    + apply Forall_insert.
      * eapply Forall_impl; [exact Jp|]. intros g. apply good_impl; [done|].
        intros [Q|(r & Q & W)]; [now left|]. right. exists r. split; [done|].
        eapply winner_mono; eauto.
      * subst g'. repeat split; simpl.
        -- destruct (isProxyAvailable c); done.
        -- intros _. exists i. apply elem_of_app. right. now apply list_elem_of_singleton.
        -- intros E. rewrite E. done.
    + eapply Forall_impl; [exact Jb|]. intros v. now apply winner_mono.
    + intros r Hr. destruct (Jr r Hr) as [W|W]; [left | now right].
      eapply winner_mono; eauto.
    + apply Forall_app. split; [exact Jl|]. apply Forall_singleton. right. eauto.
  - (* the select *)
    pose proof (sel_busy pre s i _ I Hi eq_refl) as (_ & Hcl & _).
    destruct I as [Jm Js Jw Jn1 Jn2 Jc Jcl Jx Jp Jb Jr Jl].
    destruct s as [m pl w n rc cl lg]; simpl in *. subst cl.
    injection H as <-.
    pose proof (proj1 (Forall_forall _ _) Jp _ Hin) as (Ha & Ht & _). simpl in *.
    specialize (Ha eq_refl). specialize (Ht ltac:(done)).
    assert (Hne : (if length rc <? 1 then rc ++ [c] else rc) <> []).
    { destruct rc; simpl; done. }
    split; simpl; try done.
    + erewrite sel_pool_insert; eauto.
    + pose proof (total_insert live pl i _ (Cand c CDone) Hi) as T.
      unfold live in *. simpl in *. lia.
    + apply Forall_insert.
      * eapply Forall_impl; [exact Jp|]. intros g. apply good_impl; [done|].
        intros _. now left.
      * repeat split; simpl; try done. intros _ _. now left.
    + destruct (length rc <? 1); [|exact Jb].
      apply Forall_app. split; [exact Jb|]. apply Forall_singleton. repeat split; done.
  - (* wg.Done *)
    pose proof (sel_busy pre s i _ I Hi eq_refl) as (_ & Hcl & Hw1 & Hw2).
    destruct I as [Jm Js Jw Jn1 Jn2 Jc Jcl Jx Jp Jb Jr Jl].
    destruct s as [m pl w n rc cl lg]; simpl in *. subst cl.
    destruct n as [|n]; [done|]. injection H as <-.
    pose proof (proj1 (Forall_forall _ _) Jp _ Hin) as (_ & Ht & Hq). simpl in *.
    specialize (Ht ltac:(done)).
    split; simpl; try done.
    + erewrite sel_pool_insert; eauto.
    + pose proof (total_insert live pl i _ (Cand c CExit) Hi) as T.
      unfold live in *. simpl in *. lia.
    + intros [E|E]; done.
    + apply Forall_insert; [exact Jp|]. repeat split; simpl; try done.
Qed.

Lemma SInv_step pre s s' t :
  SInv pre s -> step t s = Some s' -> SInv pre s'.
Proof.
  destruct t; simpl; eauto using SInv_step_main, SInv_step_go, SInv_step_waiter.
Qed.

Lemma SInv_run pre sched : forall s s',
  SInv pre s -> run sched s = Some s' -> SInv pre s'.
Proof.
  induction sched as [|t sched IH]; simpl; intros s s' I H.
  - now injection H as <-.
  - destruct (step t s) as [s1|] eqn:E; [|done].
    eapply IH; [|exact H]. eapply SInv_step; eauto.
Qed.

Lemma sel_run_app sched1 sched2 s :
  run (sched1 ++ sched2) s =
  match run sched1 s with
  | Some s1 => run sched2 s1
  | None => None
  end.
Proof.
  revert s. induction sched1 as [|t sched1 IH]; simpl; intros s; [reflexivity|].
  destruct (step t s); [apply IH | reflexivity].
Qed.

(** The calls of the prober made before the race starts. *)
Definition pre : list (site * string) :=
  if String.eqb configProxy "" then [] else [(Preferred, configProxy)].

(** The state in which step 1 has returned the preferred address. *)
Definition won : state :=
  State (MReturn configProxy) [] WNone 0 [] false [(Preferred, configProxy)].

Definition start : state := State (MSpawn candidates) [] WNone 0 [] false pre.

Lemma SInv_start : SInv pre start.
Proof.
  split; simpl; try done.
  apply Forall_forall. intros e He. now left.
Qed.

Lemma sel_first_step :
  step_main init = Some (if wins then won else start).
Proof.
  unfold step_main, wins, won, start, pre. simpl.
  destruct (String.eqb configProxy ""); simpl; [reflexivity|].
  destruct (isProxyAvailable configProxy); reflexivity.
Qed.

Lemma sel_run_init sched s :
  run sched init = Some s ->
  (sched = [] /\ s = init)
  \/ (wins = true /\ sched = [Main] /\ s = won)
  \/ (wins = false /\ SInv pre s).
Proof.
  destruct sched as [|t sched]; simpl.
  - intros [= <-]. now left.
  - destruct t as [|i|]; simpl; [|done|done].
    rewrite sel_first_step. destruct wins.
    + intros H. right. left. split; [reflexivity|].
      destruct sched as [|t sched]; simpl in H.
      * now injection H as <-.
      * destruct t; simpl in H; done.
    + intros H. right. right. split; [reflexivity|].
      eapply SInv_run; [|exact H]. apply SInv_start.
Qed.

Lemma sel_step_measure t s s' :
  step t s = Some s' -> measure s' < measure s.
Proof.
  destruct s as [m pl w n rc cl lg]. destruct t as [|i|]; simpl.
  - unfold step_main, measure. simpl.
    destruct m as [|[|c rest]| |r]; simpl; try done.
    + destruct (String.eqb configProxy "").
      * intros [= <-]; simpl; lia.
      * destruct (isProxyAvailable configProxy); intros [= <-]; simpl; lia.
    + intros [= <-]; simpl. destruct w; simpl; lia.
    + intros [= <-]; simpl. rewrite total_app. simpl. lia.
    + destruct rc as [|v rest].
      * destruct cl; [|done]. intros [= <-]; simpl; lia.
      * intros [= <-]; simpl; lia.
  - unfold step_go, measure. simpl.
    destruct (pl !! i) as [[c k]|] eqn:Hi; [|done].
    destruct k; [| | |done].
    + intros [= <-]; simpl.
      pose proof (total_insert cweight pl i _
                    (Cand c (if isProxyAvailable c then CSelect else CDone)) Hi) as T.
      unfold cweight in *. simpl in *. destruct (isProxyAvailable c); simpl in *; lia.
    + destruct cl; [done|]. intros [= <-]; simpl.
      pose proof (total_insert cweight pl i _ (Cand c CDone) Hi) as T.
      unfold cweight in *. simpl in *. lia.
    + destruct n as [|n]; [done|]. intros [= <-]; simpl.
      pose proof (total_insert cweight pl i _ (Cand c CExit) Hi) as T.
      unfold cweight in *. simpl in *. lia.
  - unfold step_waiter, measure. simpl. destruct w; try done.
    + destruct (n =? 0); [|done]. intros [= <-]; simpl; lia.
    + intros [= <-]; simpl; lia.
Qed.

Lemma sel_run_measure sched : forall s s',
  run sched s = Some s' -> length sched + measure s' <= measure s.
Proof.
  induction sched as [|t sched IH]; simpl; intros s s' H.
  - injection H as <-. lia.
  - destruct (step t s) as [s1|] eqn:E; [|done].
    pose proof (sel_step_measure _ _ _ E). specialize (IH _ _ H). lia.
Qed.

(** Until the body has returned some thread can move: the select never
    meets a closed channel, [wg.Done] never meets a zero counter, and the
    channel is closed once every candidate's goroutine is gone. *)
Lemma SInv_progress s :
  SInv pre s -> returned s = None -> exists t s', step t s = Some s'.
Proof.
  intros I R. pose proof I as I0.
  destruct I as [Jm Js Jw Jn1 Jn2 Jc Jcl Jx Jp Jb Jr Jl].
  destruct s as [m pl w n rc cl lg]; simpl in *.
  unfold returned in R. simpl in R.
  destruct m as [|[|c rest]| |r]; simpl in *; try done.
  - exists Main. simpl. unfold step_main. simpl. eauto.
  - exists Main. simpl. unfold step_main. simpl. eauto.
  - destruct rc as [|v rest]; [|exists Main; simpl; unfold step_main; simpl; eauto].
    destruct cl; [exists Main; simpl; unfold step_main; simpl; eauto|].
    destruct w.
    + specialize (Jn1 eq_refl). done.
    + destruct n as [|n].
      * exists Waiter. simpl. unfold step_waiter. simpl. eauto.
      * destruct (total_exists live pl) as (i & g & Hi & Hg); [lia|].
        exists (Go i). simpl. unfold step_go. simpl. rewrite Hi.
        destruct g as [c k]. destruct k; eauto.
        unfold live in Hg. simpl in Hg. lia.
    + exists Waiter. simpl. unfold step_waiter. simpl. eauto.
    + specialize (Jx eq_refl). done.
Qed.

Lemma sel_first_go_Some s : forall n i s',
  first_go s i n = Some s' -> exists j, step_go j s = Some s'.
Proof.
  induction n as [|n IH]; simpl; intros i s' H; [done|].
  destruct (step_go i s) eqn:E; [injection H as <-; eauto | eauto].
Qed.

Lemma sel_first_go_None s : forall n i j,
  first_go s i n = None -> i <= j < i + n -> step_go j s = None.
Proof.
  induction n as [|n IH]; simpl; intros i j H Hj; [lia|].
  destruct (step_go i s) eqn:E; [done|].
  destruct (decide (i = j)) as [->|]; [exact E|].
  apply (IH (S i)); [exact H | lia].
Qed.

Lemma sel_sched_step_Some s s' :
  sched_step s = Some s' -> exists t, step t s = Some s'.
Proof.
  unfold sched_step. destruct (step_main s) eqn:E.
  - intros [= <-]. now exists Main.
  - destruct (first_go s 0 (length (pool s))) eqn:E'.
    + intros [= <-]. apply sel_first_go_Some in E' as [j H]. now exists (Go j).
    + intros H. now exists Waiter.
Qed.

Lemma sel_sched_step_None s t :
  sched_step s = None -> step t s = None.
Proof.
  unfold sched_step. destruct (step_main s) eqn:E; [done|].
  destruct (first_go s 0 (length (pool s))) eqn:E'; [done|].
  intros H. destruct t as [|j|]; simpl; [exact E| |exact H].
  destruct (decide (j < length (pool s))).
  - apply (sel_first_go_None s _ 0 j E'). lia.
  - unfold step_go. rewrite (lookup_ge_None_2 (pool s) j); [done | lia].
Qed.

Definition Reach (s : state) : Prop := exists sched, run sched init = Some s.

Lemma sel_Reach_init : Reach init.
Proof. now exists []. Qed.

Lemma sel_Reach_step s t s' : Reach s -> step t s = Some s' -> Reach s'.
Proof.
  intros [sched H] E. exists (sched ++ [t]).
  rewrite sel_run_app, H. simpl. now rewrite E.
Qed.

Lemma sel_Reach_progress s :
  Reach s -> returned s = None -> exists t s', step t s = Some s'.
Proof.
  intros [sched H] R. apply sel_run_init in H as [[_ ->]|[(_ & _ & ->)|(_ & I)]].
  - exists Main. simpl. rewrite sel_first_step. eauto.
  - done.
  - eapply SInv_progress; eauto.
Qed.

Lemma sel_exec_run : forall fuel s, exists k, run k s = Some (exec fuel s).
Proof.
  induction fuel as [|fuel IH]; simpl; intros s; [now exists []|].
  destruct (returned s); [now exists []|].
  destruct (sched_step s) as [s1|] eqn:E; [|now exists []].
  apply sel_sched_step_Some in E as [t E]. destruct (IH s1) as [k Hk].
  exists (t :: k). simpl. now rewrite E.
Qed.

Lemma sel_exec_returned : forall fuel s,
  Reach s -> measure s <= fuel -> exists r, returned (exec fuel s) = Some r.
Proof.
  induction fuel as [|fuel IH]; simpl; intros s R Hm.
  - destruct (returned s) as [b|] eqn:E; [eauto|].
    destruct (sel_Reach_progress s R E) as (t & s' & Hs).
    apply sel_step_measure in Hs. lia.
  - destruct (returned s) as [b|] eqn:E; [rewrite E; eauto|].
    destruct (sched_step s) as [s'|] eqn:E'.
    + pose proof E' as E2. apply sel_sched_step_Some in E2 as [t E2].
      apply IH; [eapply sel_Reach_step; eauto|].
      apply sel_step_measure in E2. lia.
    + destruct (sel_Reach_progress s R E) as (t & s' & Hs).
      rewrite (sel_sched_step_None s t E') in Hs. done.
Qed.

(** Every run can be carried on until the body returns. *)
Lemma sel_run_returns sched s :
  run sched init = Some s ->
  exists sched' s' r, run (sched ++ sched') init = Some s' /\ returned s' = Some r.
Proof.
  intros H. assert (R : Reach s) by (now exists sched).
  destruct (sel_exec_returned (measure s) s R (le_n _)) as [r Hr].
  destruct (sel_exec_run (measure s) s) as [k Hk].
  exists k, (exec (measure s) s), r. split; [|exact Hr].
  rewrite sel_run_app, H. exact Hk.
Qed.

(** What a run can return. *)
Lemma sel_run_result sched s r :
  run sched init = Some s -> returned s = Some r ->
  (wins = true /\ r = configProxy /\ s = won)
  \/ (wins = false
      /\ (winner (probes s) r
          \/ (r = "" /\ forall c, c ∈ candidates -> isProxyAvailable c = false))).
Proof.
  intros H R. unfold returned in R.
  destruct (main s) as [| | |r'] eqn:Hm; try done. injection R as ->.
  apply sel_run_init in H as [[_ ->]|[(E & _ & ->)|(E & I)]].
  - done.
  - left. simpl in Hm. injection Hm as <-. done.
  - right. split; [exact E|]. now apply (j_ret pre s I).
Qed.

Lemma findAvailableProxy_run :
  exists sched s, run sched init = Some s /\ returned s = Some findAvailableProxy.
Proof.
  unfold findAvailableProxy.
  destruct (sel_exec_returned (measure init) init sel_Reach_init (le_n _)) as [r Hr].
  destruct (sel_exec_run (measure init) init) as [k Hk].
  rewrite Hr. eauto.
Qed.

End Machine.
End Selector.


(** ** Extraction of the frontend archive: [updateFrontend] (main.go, lines 198-234) *)

Module Frontend.

(** [os.PathSeparator] of a Unix build, where [path/filepath] splits on
    it alone. *)
Definition PathSeparator : ascii := "/"%char.

Definition is_sep (c : ascii) : bool := Ascii.eqb c PathSeparator.

(** [strings.HasPrefix]. *)
Fixpoint HasPrefix (s pre : string) {struct pre} : bool :=
  match pre, s with
  | EmptyString, _ => true
  | String c pre', String d s' => Ascii.eqb c d && HasPrefix s' pre'
  | String _ _, EmptyString => false
  end.

(** The elements of a path: the pieces between separators. *)
Fixpoint split (s : string) : list string :=
  match s with
  | EmptyString => [EmptyString]
  | String c s' =>
      if is_sep c then EmptyString :: split s'
      else match split s' with
           | x :: xs => String c x :: xs
           | [] => [String c EmptyString]
           end
  end.

Fixpoint join (l : list string) : string :=
  match l with
  | [] => EmptyString
  | [x] => x
  | x :: xs => x +:+ String PathSeparator (join xs)
  end.

(** The loop of [filepath.Clean], one path element at a time: [out] is
    the buffer (last element first) and [dotdot] counts the leading ".."
    elements, past which the buffer cannot be cut back. *)
Fixpoint clean_elems (rooted : bool) (out : list string) (dotdot : nat)
    (elems : list string) : list string :=
  match elems with
  | [] => reverse out
  | e :: rest =>
      if String.eqb e "" || String.eqb e "." then clean_elems rooted out dotdot rest
      else if String.eqb e ".." then
        if dotdot <? length out then clean_elems rooted (tail out) dotdot rest
        else if rooted then clean_elems rooted out dotdot rest
        else clean_elems rooted (".." :: out) (S (length out)) rest
      else clean_elems rooted (e :: out) dotdot rest
  end.

(** [filepath.Clean]. *)
Definition Clean (path : string) : string :=
  match path with
  | EmptyString => "."
  | String c _ =>
      let rooted := is_sep c in
      let out := clean_elems rooted [] 0 (split path) in
      if rooted then String PathSeparator (join out)
      else match out with
           | [] => "."
           | _ => join out
           end
  end.

(** [filepath.Join] of two elements: empty elements before the first
    non-empty one are dropped, the rest is joined and cleaned. *)
Definition Join (a b : string) : string :=
  if negb (String.eqb a "") then Clean (a +:+ String PathSeparator b)
  else if negb (String.eqb b "") then Clean b
  else "".

(** The part of a path up to and including its last separator. *)
Fixpoint dir_part (elems : list string) : string :=
  match elems with
  | [] | [_] => EmptyString
  | x :: xs => x +:+ String PathSeparator (dir_part xs)
  end.

(** [filepath.Dir]. *)
Definition Dir (path : string) : string := Clean (dir_part (split path)).

(** Line 198. *)
Definition tmpDir : string := "dist_temp".

(** What the loop reads of a [*zip.File]: its name, whether its mode
    says directory, its content, and whether [f.Open] fails. *)
Record zipFile := ZipFile {
  Name : string;
  IsDir : bool;
  content : string;
  openErr : bool
}.

(** Calls into the file system. *)
Inductive fsop :=
| MkdirAll (path : string)
| OpenFile (path : string)
| Copy (path : string) (data : string).

(** The [log.Fatalf] calls of the loop; each ends the process. *)
Inductive fatal :=
| IllegalPath (fpath : string)   (* line 210 *)
| MkdirFailed                    (* line 217 *)
| CreateFailed                   (* line 221 *)
| OpenFailed                     (* line 226 *)
| CopyFailed.                    (* line 232 *)

Inductive outcome := Done | Fatal (why : fatal).

Section Extract.
(** Which calls the operating system refuses. *)
Variable fails : fsop -> bool.

(** The guard of line 209. *)
Definition guard (fpath : string) : bool :=
  HasPrefix fpath (Clean tmpDir +:+ String PathSeparator EmptyString).

(** The body of the loop for one entry: the calls it makes, and whether
    it goes on to the next entry. *)
Definition extract_one (f : zipFile) : outcome * list fsop :=
  let fpath := Join tmpDir (Name f) in
  if negb (guard fpath) then (Fatal (IllegalPath fpath), [])
  else if IsDir f then (Done, [MkdirAll fpath])
  else if fails (MkdirAll (Dir fpath)) then (Fatal MkdirFailed, [MkdirAll (Dir fpath)])
  else if fails (OpenFile fpath) then
    (Fatal CreateFailed, [MkdirAll (Dir fpath); OpenFile fpath])
  else if openErr f then (Fatal OpenFailed, [MkdirAll (Dir fpath); OpenFile fpath])
  else if fails (Copy fpath (content f)) then
    (Fatal CopyFailed, [MkdirAll (Dir fpath); OpenFile fpath; Copy fpath (content f)])
  else (Done, [MkdirAll (Dir fpath); OpenFile fpath; Copy fpath (content f)]).

(** The loop of lines 207-234: the calls made, in order. *)
Fixpoint extract (files : list zipFile) : outcome * list fsop :=
  match files with
  | [] => (Done, [])
  | f :: rest =>
      match extract_one f with
      | (Done, ops) => let (o, ops') := extract rest in (o, ops ++ ops')
      | (Fatal why, ops) => (Fatal why, ops)
      end
  end.

End Extract.

(** *** Lying inside a directory *)

(** A path element that names something: not empty, not ".", not "..". *)
Definition real (e : string) : bool :=
  negb (String.eqb e "" || String.eqb e "." || String.eqb e "..").

(** [path] lies strictly inside [dir]: its elements are those of [dir]
    followed by at least one element, all of them real. *)
Definition within (dir path : string) : Prop :=
  exists rest, rest <> [] /\ Forall (fun e => real e = true) rest
               /\ split path = split dir ++ rest.

Definition escapes (dir path : string) : Prop := ~ within dir path.


(** *** Splitting and joining *)

Local Arguments Ascii.eqb : simpl never.

Fixpoint nosep (s : string) : bool :=
  match s with
  | EmptyString => true
  | String c s' => negb (is_sep c) && nosep s'
  end.

Lemma append_nil r : "" +:+ r = r.
Proof. reflexivity. Qed.

Lemma append_cons c a r : String c a +:+ r = String c (a +:+ r).
Proof. reflexivity. Qed.

Lemma is_sep_true c : is_sep c = true -> c = PathSeparator.
Proof. unfold is_sep. apply Ascii.eqb_eq. Qed.

Lemma split_not_nil s : split s <> [].
Proof.
  destruct s as [|c s]; simpl; [done|].
  destruct (is_sep c); [done|]. destruct (split s); done.
Qed.

Lemma join_cons_char c x xs : join (String c x :: xs) = String c (join (x :: xs)).
Proof. destruct xs; reflexivity. Qed.

Lemma join_split s : join (split s) = s.
Proof.
  induction s as [|c s IH]; [reflexivity|]. simpl.
  destruct (is_sep c) eqn:E.
  - apply is_sep_true in E. subst c.
    pose proof (split_not_nil s). destruct (split s) as [|x xs]; [done|].
    change (join ("" :: x :: xs)) with (String PathSeparator (join (x :: xs))).
    now rewrite IH.
  - pose proof (split_not_nil s). destruct (split s) as [|x xs]; [done|].
    rewrite join_cons_char. now rewrite IH.
Qed.

Lemma split_nosep s : Forall (fun e => nosep e = true) (split s).
Proof.
  induction s as [|c s IH]; simpl.
  - repeat constructor.
  - destruct (is_sep c) eqn:E.
    + constructor; [reflexivity | exact IH].
    + destruct (split s) as [|x xs].
      * repeat constructor. simpl. now rewrite E.
      * apply Forall_cons in IH as [Hx Hxs]. constructor; [|exact Hxs].
        simpl. now rewrite E, Hx.
Qed.

Lemma split_single x : nosep x = true -> split x = [x].
Proof.
  induction x as [|c x IH]; simpl; [reflexivity|].
  intros H. apply andb_true_iff in H as [Hc Hx].
  apply negb_true_iff in Hc. rewrite Hc, (IH Hx). reflexivity.
Qed.

Lemma split_app_sep x r :
  nosep x = true -> split (x +:+ String PathSeparator r) = x :: split r.
Proof.
  induction x as [|c x IH]; simpl; intros H.
  - reflexivity.
  - apply andb_true_iff in H as [Hc Hx]. apply negb_true_iff in Hc.
    rewrite Hc, (IH Hx). reflexivity.
Qed.

Lemma split_join l :
  l <> [] -> Forall (fun e => nosep e = true) l -> split (join l) = l.
Proof.
  induction l as [|x xs IH]; [done|]. intros _ H.
  apply Forall_cons in H as [Hx Hxs].
  destruct xs as [|y ys].
  - simpl. now apply split_single.
  - change (join (x :: y :: ys)) with (x +:+ String PathSeparator (join (y :: ys))).
    rewrite split_app_sep by exact Hx. rewrite IH; done.
Qed.

Lemma HasPrefix_app pre r : HasPrefix (pre +:+ r) pre = true.
Proof.
  induction pre as [|c pre IH]; [reflexivity|].
  rewrite append_cons. simpl. rewrite Ascii.eqb_refl. exact IH.
Qed.

Lemma append_assoc_sep a r :
  a +:+ String PathSeparator r = (a +:+ String PathSeparator EmptyString) +:+ r.
Proof.
  induction a as [|c a IH]; [reflexivity|].
  rewrite !append_cons. now f_equal.
Qed.

(** A joined path that starts with [d/] has [d] as its first element,
    and goes on. *)
Lemma HasPrefix_join d : forall e es,
  nosep d = true -> nosep e = true ->
  HasPrefix (join (e :: es)) (d +:+ String PathSeparator EmptyString) = true ->
  e = d /\ es <> [].
Proof.
  induction d as [|c d IH]; intros e es Hd He H.
  - rewrite append_nil in H. destruct e as [|a e].
    + destruct es as [|y ys]; [simpl in H; done | done].
    + exfalso. rewrite join_cons_char in H. simpl in H, He.
      apply andb_true_iff in H as [H _]. apply Ascii.eqb_eq in H. subst a.
      unfold is_sep in He. rewrite Ascii.eqb_refl in He. done.
  - rewrite append_cons in H.
    simpl in Hd. apply andb_true_iff in Hd as [Hc Hd].
    destruct e as [|a e].
    + exfalso. destruct es as [|y ys]; [simpl in H; done|].
      change (join ("" :: y :: ys)) with (String PathSeparator (join (y :: ys))) in H.
      simpl in H.
      apply andb_true_iff in H as [H _]. apply Ascii.eqb_eq in H. subst c.
      unfold is_sep in Hc. rewrite Ascii.eqb_refl in Hc. done.
    + rewrite join_cons_char in H. simpl in H, He.
      apply andb_true_iff in H as [Hca H]. apply Ascii.eqb_eq in Hca. subst a.
      apply andb_true_iff in He as [_ He].
      destruct (IH e es Hd He H) as [-> Hes]. done.
Qed.

(** *** The shape of a cleaned path *)

(** The cleaned elements are a run of ".." (none when the path is
    rooted) followed by real elements only. *)
Lemma clean_elems_shape rooted : forall elems stack dd,
  Forall (fun e => real e = true) stack -> (rooted = true -> dd = 0) ->
  exists dd' reals,
    clean_elems rooted (stack ++ replicate dd "..") dd elems = replicate dd' ".." ++ reals
    /\ Forall (fun e => real e = true) reals
    /\ (rooted = true -> dd' = 0).
Proof.
  induction elems as [|e rest IH]; intros stack dd Hs Hr.
  - simpl. exists dd, (reverse stack). split; [|split].
    + rewrite reverse_app, reverse_replicate. reflexivity.
    + now apply Forall_reverse.
    + exact Hr.
  - simpl. destruct (String.eqb e "" || String.eqb e ".") eqn:E1; [now apply IH|].
    destruct (String.eqb e "..") eqn:E2.
    + rewrite length_app, length_replicate.
      destruct stack as [|x st].
      * simpl. rewrite Nat.ltb_irrefl. destruct rooted eqn:R.
        -- now apply (IH []).
        -- change (".." :: replicate dd "..") with ([] ++ replicate (S dd) "..").
           apply IH; [constructor | done].
      * simpl. replace (dd <? S (length st + dd)) with true
          by (symmetry; apply Nat.ltb_lt; lia).
        apply Forall_cons in Hs as [_ Hs]. now apply IH.
    + change (e :: stack ++ replicate dd "..") with ((e :: stack) ++ replicate dd "..").
      apply IH; [|exact Hr]. constructor; [|exact Hs].
      unfold real. apply orb_false_iff in E1 as [-> ->]. rewrite E2. reflexivity.
Qed.

Lemma clean_elems_nosep rooted : forall elems out dd,
  Forall (fun e => nosep e = true) out -> Forall (fun e => nosep e = true) elems ->
  Forall (fun e => nosep e = true) (clean_elems rooted out dd elems).
Proof.
  induction elems as [|e rest IH]; intros out dd Ho He; simpl.
  - now apply Forall_reverse.
  - apply Forall_cons in He as [He Hrest].
    destruct (String.eqb e "" || String.eqb e "."); [now apply IH|].
    destruct (String.eqb e "..").
    + destruct (dd <? length out).
      * apply IH; [|exact Hrest]. destruct out; [constructor|].
        apply Forall_cons in Ho as [_ Ho]. exact Ho.
      * destruct rooted; apply IH; try done. constructor; [reflexivity | exact Ho].
    + apply IH; [|exact Hrest]. now constructor.
Qed.

Lemma Clean_relative c s :
  is_sep c = false ->
  Clean (String c s) = match clean_elems false [] 0 (split (String c s)) with
                       | [] => "."
                       | out => join out
                       end.
Proof.
  intros H. unfold Clean. rewrite H.
  destruct (clean_elems false [] 0 (split (String c s))); reflexivity.
Qed.

Lemma Clean_tmpDir : Clean tmpDir = tmpDir.
Proof. reflexivity. Qed.

Lemma split_tmpDir : split tmpDir = [tmpDir].
Proof. reflexivity. Qed.

(** On a joined path the guard of line 209 holds exactly when the path
    lies strictly inside the temporary directory. *)
Lemma guard_within name :
  guard (Join tmpDir name) = true <-> within tmpDir (Join tmpDir name).
Proof.
  split.
  - unfold guard. rewrite Clean_tmpDir.
    change (Join tmpDir name) with (Clean (tmpDir +:+ String PathSeparator name)).
    set (x := tmpDir +:+ String PathSeparator name).
    assert (Hx : x = String "d" ("ist_temp" +:+ String PathSeparator name))
      by reflexivity.
    rewrite Hx, Clean_relative by reflexivity. rewrite <- Hx. clear Hx. clearbody x.
    destruct (clean_elems_shape false (split x) [] 0 ltac:(constructor) ltac:(done))
      as (dd & reals & Hc & Hreal & _).
    simpl in Hc.
    pose proof (clean_elems_nosep false (split x) [] 0 ltac:(constructor) (split_nosep x))
      as Hns.
    destruct (clean_elems false [] 0 (split x)) as [|e es] eqn:E; [done|].
    intros H. apply Forall_cons in Hns as [He Hes].
    apply HasPrefix_join in H as [-> Hne]; [|reflexivity|exact He].
    exists es. split; [exact Hne|]. split.
    + destruct dd as [|dd]; simpl in Hc.
      * subst reals. apply Forall_cons in Hreal as [_ Hreal]. exact Hreal.
      * injection Hc as Hc _. done.
    + rewrite split_join; [|done|now constructor]. now rewrite split_tmpDir.
  - intros (rest & Hne & _ & Hsp). unfold guard. rewrite Clean_tmpDir.
    rewrite <- (join_split (Join tmpDir name)), Hsp, split_tmpDir.
    destruct rest as [|r rs]; [done|].
    change (join ([tmpDir] ++ r :: rs)) with (tmpDir +:+ String PathSeparator (join (r :: rs))).
    rewrite append_assoc_sep. apply HasPrefix_app.
Qed.

(** *** Every call stays inside the temporary directory *)

Definition path_of (op : fsop) : string :=
  match op with MkdirAll q | OpenFile q | Copy q _ => q end.

(** The directory itself, or a path strictly inside it. *)
Definition inside (dir path : string) : Prop := path = dir \/ within dir path.

Lemma real_nonempty e : real e = true -> e <> "".
Proof. intros H ->. done. Qed.

Lemma clean_elems_reals rooted : forall l out dd,
  Forall (fun e => real e = true) l ->
  clean_elems rooted out dd (l ++ [""]) = reverse out ++ l.
Proof.
  induction l as [|e l IH]; intros out dd Hl; simpl.
  - now rewrite app_nil_r.
  - apply Forall_cons in Hl as [He Hl]. unfold real in He.
    apply negb_true_iff in He. apply orb_false_iff in He as [He E3].
    rewrite He, E3. rewrite IH by exact Hl.
    rewrite reverse_cons, <- app_assoc. reflexivity.
Qed.

Lemma split_dir_part : forall l,
  Forall (fun e => nosep e = true) l -> 2 <= length l ->
  split (dir_part l) = removelast l ++ [""].
Proof.
  induction l as [|x xs IH]; intros Hl Hlen; simpl in Hlen; [lia|].
  apply Forall_cons in Hl as [Hx Hxs].
  destruct xs as [|y ys]; simpl in Hlen; [lia|].
  change (dir_part (x :: y :: ys)) with (x +:+ String PathSeparator (dir_part (y :: ys))).
  rewrite split_app_sep by exact Hx.
  destruct ys as [|z zs].
  - reflexivity.
  - rewrite IH; [reflexivity | exact Hxs | simpl; lia].
Qed.

(** The parent of a path strictly inside the directory is inside it. *)
Lemma Dir_inside name :
  guard (Join tmpDir name) = true -> inside tmpDir (Dir (Join tmpDir name)).
Proof.
  intros Hg. pose proof Hg as Hw. apply guard_within in Hw as (es & Hne & Hreal & Hsp).
  rewrite split_tmpDir in Hsp. simpl in Hsp.
  pose proof (split_nosep (Join tmpDir name)) as Hns. rewrite Hsp in Hns.
  unfold Dir. rewrite Hsp.
  destruct es as [|e es]; [done|].
  assert (Hd : dir_part (tmpDir :: e :: es)
               = String "d" ("ist_temp" +:+ String PathSeparator (dir_part (e :: es))))
    by reflexivity.
  rewrite Hd, Clean_relative by reflexivity. rewrite <- Hd.
  rewrite split_dir_part; [|exact Hns|simpl; lia].
  assert (Hrl : Forall (fun x => real x = true) (removelast (tmpDir :: e :: es))).
  { change (removelast (tmpDir :: e :: es)) with (tmpDir :: removelast (e :: es)).
    constructor; [reflexivity|].
    clear -Hreal. revert e Hreal. induction es as [|z zs IH]; intros e Hr; simpl.
    - constructor.
    - apply Forall_cons in Hr as [He Hr]. constructor; [exact He|]. now apply IH. }
  rewrite clean_elems_reals by exact Hrl.
  change (reverse [] ++ removelast (tmpDir :: e :: es))
    with (tmpDir :: removelast (e :: es)).
  destruct (removelast (e :: es)) as [|r rs] eqn:Er.
  - now left.
  - right. exists (r :: rs). split; [done|]. split.
    + change (removelast (tmpDir :: e :: es)) with (tmpDir :: removelast (e :: es)) in Hrl.
      rewrite Er in Hrl. apply Forall_cons in Hrl as [_ Hrl]. exact Hrl.
    + rewrite split_tmpDir. apply split_join; [done|].
      constructor; [reflexivity|].
      assert (Hsub : Forall (fun x => nosep x = true) (removelast (e :: es))).
      { apply Forall_cons in Hns as [_ Hns]. clear -Hns. revert e Hns.
        induction es as [|z zs IH]; intros e Hr; simpl.
        - constructor.
        - apply Forall_cons in Hr as [He Hr]. constructor; [exact He|]. now apply IH. }
      now rewrite Er in Hsub.
Qed.

Lemma extract_one_inside fails f op :
  op ∈ (extract_one fails f).2 -> inside tmpDir (path_of op).
Proof.
  unfold extract_one.
  destruct (guard (Join tmpDir (Name f))) eqn:Hg; simpl; [|intros H; inversion H].
  assert (Hin : inside tmpDir (Join tmpDir (Name f)))
    by (right; now apply guard_within).
  pose proof (Dir_inside _ Hg) as Hdir.
  destruct (IsDir f); simpl.
  { intros H. apply list_elem_of_singleton in H. now subst op. }
  repeat (match goal with |- context [if ?b then _ else _] => destruct b end);
    simpl; intros H;
    repeat (apply elem_of_cons in H as [->|H]; [assumption|]); inversion H.
Qed.

(** Every call the loop makes names the temporary directory or a path
    strictly inside it. *)
Lemma extract_inside fails files op :
  op ∈ (extract fails files).2 -> inside tmpDir (path_of op).
Proof.
  induction files as [|f files IH]; simpl; [intros H; inversion H|].
  pose proof (extract_one_inside fails f op) as H1.
  destruct (extract_one fails f) as [[|why] ops]; simpl in *; [|exact H1].
  destruct (extract fails files) as [o ops']; simpl in *.
  intros H. apply elem_of_app in H as [H|H]; auto.
Qed.

End Frontend.


(** ** A concrete network, to run the model on *)

Module Sample.

(** The first test of [url.Parse]: an address with an ASCII control byte
    is refused. *)
Definition ctl (c : ascii) : bool :=
  (nat_of_ascii c <? 32) || (nat_of_ascii c =? 127).

Fixpoint has_ctl (s : string) : bool :=
  match s with
  | EmptyString => false
  | String c s' => ctl c || has_ctl s'
  end.

Definition url_Parse (s : string) : option string :=
  if has_ctl s then None else Some s.

Definition google : string := "https://www.google.com/generate_204".

(** Port 7890 reaches both targets, port 10808 only the first, and
    nothing listens elsewhere. *)
Definition Get (u tgt : string) : Prober.response :=
  if String.eqb u "http://127.0.0.1:7890" then
    (if String.eqb tgt google then Prober.Resp 204 else Prober.Resp 200)
  else if String.eqb u "http://127.0.0.1:10808" then
    (if String.eqb tgt google then Prober.Resp 204 else Prober.Err)
  else Prober.Err.

Abbreviation isProxyAvailable :=
  (Prober.isProxyAvailable string url_Parse Get Prober.testURLs).

(** [commonProxies] of [main] (main.go, lines 318-325). *)
Definition commonProxies : list string :=
  [ "http://127.0.0.1:7890"; "http://127.0.0.1:7891"; "http://127.0.0.1:1080";
    "http://127.0.0.1:8080"; "http://127.0.0.1:10808"; "http://127.0.0.1:10809" ].

(** One interleaving of a call of the prober: the two probes are started,
    the second answers first, and the body reads the channel. *)
Definition schedule : list Prober.tid :=
  [ Prober.Main; Prober.Main; Prober.Main; Prober.Main;
    Prober.Go 1; Prober.Go 0; Prober.Go 1; Prober.Go 1; Prober.Go 0; Prober.Go 0;
    Prober.Main; Prober.Main; Prober.Main ].

Abbreviation run_prober proxy sched :=
  (Prober.run string url_Parse Get Prober.testURLs proxy sched (Prober.init string)).

Abbreviation run_selector configProxy candidates sched :=
  (Selector.run isProxyAvailable configProxy candidates sched Selector.init).

End Sample.


(** ** The prober and the selector of the program *)

Section Claims.
Variable URL : Type.
Variable url_Parse : string -> option URL.
Variable Get : URL -> string -> Prober.response.

Local Abbreviation prun := (Prober.run URL url_Parse Get Prober.testURLs).
Local Abbreviation pinit := (Prober.init URL).
Local Abbreviation available := (Prober.isProxyAvailable URL url_Parse Get Prober.testURLs).
Local Abbreviation srun := (Selector.run available).

Lemma testURLs_NoDup : NoDup (Prober.url <$> Prober.testURLs).
Proof.
  apply NoDup_cons. split.
  - intros H. apply list_elem_of_singleton in H. discriminate.
  - apply NoDup_singleton.
Qed.

Lemma available_verdict proxy :
  available proxy = Prober.verdict URL url_Parse Get Prober.testURLs proxy.
Proof. apply Prober.isProxyAvailable_verdict. Qed.

(** C1. Whatever the interleaving, a call of [isProxyAvailable] that has
    returned has returned [true] exactly when the address parses and
    every target answers, without error, with its expected status code;
    one failing target makes it [false]; and every run can be carried on
    to the return. *)
Theorem isProxyAvailable_all_targets proxy sched s :
  prun proxy sched pinit = Some s ->
  (forall b, Prober.returned s = Some b ->
     (b = true <->
      exists u, url_Parse proxy = Some u
                /\ forall t, t ∈ Prober.testURLs ->
                     Get u (Prober.url t) = Prober.Resp (Prober.expectCode t)))
  /\ (forall u t b, url_Parse proxy = Some u -> t ∈ Prober.testURLs ->
        Get u (Prober.url t) <> Prober.Resp (Prober.expectCode t) ->
        Prober.returned s = Some b -> b = false)
  /\ (exists sched' s' b, prun proxy (sched ++ sched') pinit = Some s'
                          /\ Prober.returned s' = Some b)
  /\ length sched <= Prober.measure URL Prober.testURLs pinit.
Proof.
  intros H. split; [|split; [|split]].
  - intros b Hb. rewrite (Prober.run_verdict _ _ _ _ _ _ _ _ H Hb).
    apply Prober.verdict_true.
  - intros u t b Hu Ht Hne Hb. rewrite (Prober.run_verdict _ _ _ _ _ _ _ _ H Hb).
    apply not_true_is_false. intros Hv.
    apply Prober.verdict_true in Hv as (u' & Hu' & Hall).
    rewrite Hu in Hu'. injection Hu' as <-. now apply Hne, Hall.
  - destruct (Prober.run_returns _ _ _ _ _ _ _ H) as (k & s' & Hk & Hr). eauto.
  - pose proof (Prober.run_measure _ _ _ _ _ _ _ _ H). lia.
Qed.

(** C5. When the address does not parse, the call returns [false] at its
    first step, and no goroutine is started and no request issued. *)
Theorem isProxyAvailable_malformed proxy sched s :
  url_Parse proxy = None ->
  prun proxy sched pinit = Some s ->
  Prober.requests s = [] /\ Prober.pool s = []
  /\ (forall b, Prober.returned s = Some b -> b = false)
  /\ (exists s', prun proxy [Prober.Main] pinit = Some s'
                 /\ Prober.returned s' = Some false)
  /\ length sched <= 1
  /\ available proxy = false.
Proof.
  intros E H.
  assert (Hv : available proxy = false).
  { rewrite available_verdict. unfold Prober.verdict. now rewrite E. }
  assert (H1 : prun proxy [Prober.Main] pinit
               = Some (Prober.rejected URL)).
  { simpl. unfold Prober.step_main. simpl. now rewrite E. }
  apply Prober.run_init in H as [[-> ->]|[(_ & -> & ->)|(u & Hu & _)]].
  - repeat split; simpl; try done; eauto.
  - repeat split; simpl; try done; eauto.
    intros b [= <-]. reflexivity.
  - rewrite E in Hu. done.
Qed.

(** C6. When the call returns, every goroutine it started has run to its
    end and has sent its outcome on the channel: the outcomes collected
    are one per probe started, and these are one per configured target
    unless the address did not parse, in which case none was started.
    This holds whether the outcomes are successes or failures. *)
Theorem isProxyAvailable_waits_for_all proxy sched s b :
  prun proxy sched pinit = Some s ->
  Prober.returned s = Some b ->
  (forall g, g ∈ Prober.pool s -> Prober.pc g = Prober.PExit)
  /\ length (Prober.collected s) = length (Prober.pool s)
  /\ length (Prober.requests s) = length (Prober.pool s)
  /\ (forall u, url_Parse proxy = Some u ->
        length (Prober.pool s) = length Prober.testURLs
        /\ forall t, t ∈ Prober.testURLs ->
             Prober.url t ∈ Prober.requests s
             /\ (Prober.url t,
                 Prober.outcome URL Get u (Prober.url t) (Prober.expectCode t))
                ∈ Prober.collected s)
  /\ (url_Parse proxy = None -> Prober.pool s = []).
Proof.
  intros H R. unfold Prober.returned in R.
  destruct (Prober.main s) as [| | | | |b'] eqn:Hm; try done.
  apply Prober.run_init in H as [[_ ->]|[(E & _ & ->)|(u & E & I)]].
  - done.
  - simpl. split; [intros g Hg; inversion Hg|].
    split; [reflexivity|]. split; [reflexivity|].
    split; [intros u Hu; rewrite E in Hu; done | done].
  - destruct (Prober.Inv_joined URL Get Prober.testURLs u s b' I Hm) as (Hx & Hsp & Hrl & Hcl & Hall).
    assert (Hlen : length (Prober.pool s) = length Prober.testURLs).
    { now rewrite <- Hsp, length_fmap. }
    split; [exact Hx|]. split; [lia|]. split; [lia|]. split.
    + intros u' Hu'. rewrite E in Hu'. injection Hu' as <-.
      split; [exact Hlen | exact Hall].
    + intros E'. rewrite E in E'. done.
Qed.

(** C8. Under one behaviour of the network, two calls on the same address
    return the same verdict, whatever their interleavings, and issue the
    same requests; the call keeps no state from one run to the next. *)
Theorem isProxyAvailable_idempotent proxy sched1 s1 b1 sched2 s2 b2 :
  prun proxy sched1 pinit = Some s1 -> Prober.returned s1 = Some b1 ->
  prun proxy sched2 pinit = Some s2 -> Prober.returned s2 = Some b2 ->
  b1 = b2 /\ Prober.requests s1 ≡ₚ Prober.requests s2.
Proof.
  intros H1 R1 H2 R2. split.
  - rewrite (Prober.run_verdict _ _ _ _ _ _ _ _ H1 R1).
    now rewrite (Prober.run_verdict _ _ _ _ _ _ _ _ H2 R2).
  - unfold Prober.returned in R1, R2.
    destruct (Prober.main s1) as [| | | | |c1] eqn:Hm1; try done.
    destruct (Prober.main s2) as [| | | | |c2] eqn:Hm2; try done.
    apply Prober.run_init in H1 as [[_ ->]|[(E1 & _ & ->)|(u1 & E1 & I1)]]; [done| |];
      apply Prober.run_init in H2 as [[_ ->]|[(E2 & _ & ->)|(u2 & E2 & I2)]];
      try done; try (rewrite E1 in E2; done).
    rewrite (Prober.Inv_requests URL Get Prober.testURLs u1 s1 c1 testURLs_NoDup I1 Hm1).
    now rewrite (Prober.Inv_requests URL Get Prober.testURLs u2 s2 c2 testURLs_NoDup I2 Hm2).
Qed.

(** C7. The configured targets are two: the no-content check of
    www.google.com, expected to answer 204, and a file of
    raw.githubusercontent.com, expected to answer 200; and a finished
    call on an address that parses has requested exactly these two URLs,
    each once. *)
Theorem testURLs_two_targets :
  length Prober.testURLs = 2
  /\ Prober.expectCode <$> Prober.testURLs = [204%Z; 200%Z]
  /\ Prober.host <$> (Prober.url <$> Prober.testURLs)
     = ["www.google.com"; "raw.githubusercontent.com"]
  /\ Prober.url <$> Prober.testURLs
     = ["https://www.google.com/generate_204";
        "https://raw.githubusercontent.com/github/gitignore/main/Go.gitignore"]
  /\ (forall proxy sched s b u,
        url_Parse proxy = Some u ->
        prun proxy sched pinit = Some s -> Prober.returned s = Some b ->
        Prober.requests s ≡ₚ Prober.url <$> Prober.testURLs).
Proof.
  split; [reflexivity|]. split; [reflexivity|]. split; [reflexivity|].
  split; [reflexivity|].
  intros proxy sched s b u Hu H R. unfold Prober.returned in R.
  destruct (Prober.main s) as [| | | | |b'] eqn:Hm; try done.
  apply Prober.run_init in H as [[_ ->]|[(E & _ & ->)|(u' & E & I)]].
  - done.
  - rewrite E in Hu. done.
  - exact (Prober.Inv_requests URL Get Prober.testURLs u' s b' testURLs_NoDup I Hm).
Qed.

(** C2. When the preferred address is not empty and the prober finds it
    available, the selector returns it at its first step: no goroutine is
    started for any candidate, and the one call of the prober is the call
    of line 69 on the preferred address. *)
Theorem findAvailableProxy_preferred_first configProxy candidates sched s :
  configProxy <> "" ->
  available configProxy = true ->
  srun configProxy candidates sched Selector.init = Some s ->
  (forall r, Selector.returned s = Some r -> r = configProxy)
  /\ Selector.pool s = [] /\ Selector.waiter s = Selector.WNone
  /\ (forall i c, (Selector.Candidate i, c) ∉ Selector.probes s)
  /\ (forall site c, (site, c) ∈ Selector.probes s ->
        site = Selector.Preferred /\ c = configProxy)
  /\ length (Selector.probes s) <= 1
  /\ (exists s', srun configProxy candidates [Selector.Main] Selector.init = Some s'
                 /\ Selector.returned s' = Some configProxy)
  /\ length sched <= 1.
Proof.
  intros Hne Hav H.
  assert (W : Selector.wins available configProxy = true).
  { unfold Selector.wins. rewrite Hav.
    destruct (String.eqb_spec configProxy ""); done. }
  assert (H1 : srun configProxy candidates [Selector.Main] Selector.init
               = Some (Selector.won configProxy)).
  { simpl. rewrite Selector.sel_first_step, W. reflexivity. }
  apply Selector.sel_run_init in H as [[-> ->]|[(_ & -> & ->)|(W' & _)]].
  - simpl. split; [done|]. split; [done|]. split; [done|].
    split; [intros i c Hc; inversion Hc|].
    split; [intros site c Hc; inversion Hc|]. split; [lia|].
    split; [eauto | lia].
  - simpl. split; [now intros r [= <-]|]. split; [done|]. split; [done|].
    split; [intros i c Hc; apply list_elem_of_singleton in Hc; done|].
    split; [intros site c Hc; apply list_elem_of_singleton in Hc; now injection Hc as -> ->|].
    split; [lia|]. split; [eauto | lia].
  - rewrite W in W'. done.
Qed.

(** C3. When the preferred address is empty or unavailable and some
    candidate is available, whatever the interleaving the selector can
    only return a candidate that its own probe found available; it does
    return; and when a single candidate is available it returns that
    one. *)
Theorem findAvailableProxy_available_candidate configProxy candidates sched s :
  configProxy = "" \/ available configProxy = false ->
  (exists c, c ∈ candidates /\ available c = true) ->
  srun configProxy candidates sched Selector.init = Some s ->
  (forall r, Selector.returned s = Some r ->
     r ∈ candidates /\ available r = true
     /\ exists i, (Selector.Candidate i, r) ∈ Selector.probes s)
  /\ (forall c0, (forall c, c ∈ candidates -> available c = true -> c = c0) ->
        forall r, Selector.returned s = Some r -> r = c0)
  /\ (exists sched' s' r,
        srun configProxy candidates (sched ++ sched') Selector.init = Some s'
        /\ Selector.returned s' = Some r).
Proof.
  intros Hp (c & Hc & Hav) H.
  assert (W : Selector.wins available configProxy = false).
  { unfold Selector.wins. destruct Hp as [-> | ->]; [reflexivity|].
    now rewrite andb_false_r. }
  assert (G : forall r, Selector.returned s = Some r ->
                Selector.winner available candidates (Selector.probes s) r).
  { intros r R.
    destruct (Selector.sel_run_result _ _ _ _ _ _ H R) as [(W' & _)|(_ & [Hw|(_ & Hall)])].
    - rewrite W in W'. done.
    - exact Hw.
    - rewrite (Hall c Hc) in Hav. done. }
  split; [|split].
  - intros r R. exact (G r R).
  - intros c0 Huniq r R. destruct (G r R) as (Hr & Hra & _). now apply Huniq.
  - exact (Selector.sel_run_returns _ _ _ _ _ H).
Qed.

(** C4. When the preferred address is empty or unavailable and no
    candidate is available (none at all, for an empty list), the selector
    returns the empty string, and it does return: no run is stuck before
    the return. *)
Theorem findAvailableProxy_none configProxy candidates sched s :
  configProxy = "" \/ available configProxy = false ->
  (forall c, c ∈ candidates -> available c = false) ->
  srun configProxy candidates sched Selector.init = Some s ->
  (forall r, Selector.returned s = Some r -> r = "")
  /\ (exists sched' s',
        srun configProxy candidates (sched ++ sched') Selector.init = Some s'
        /\ Selector.returned s' = Some "")
  /\ Selector.findAvailableProxy available configProxy candidates = "".
Proof.
  intros Hp Hall H.
  assert (W : Selector.wins available configProxy = false).
  { unfold Selector.wins. destruct Hp as [-> | ->]; [reflexivity|].
    now rewrite andb_false_r. }
  assert (G : forall k s' r, srun configProxy candidates k Selector.init = Some s' ->
                Selector.returned s' = Some r -> r = "").
  { intros k s' r Hk R.
    destruct (Selector.sel_run_result _ _ _ _ _ _ Hk R) as [(W' & _)|(_ & [Hw|(E & _)])].
    - rewrite W in W'. done.
    - destruct Hw as (Hr & Hra & _). rewrite (Hall r Hr) in Hra. done.
    - exact E. }
  split; [|split].
  - intros r R. exact (G _ _ _ H R).
  - destruct (Selector.sel_run_returns _ _ _ _ _ H) as (k & s' & r & Hk & R).
    exists k, s'. split; [exact Hk|]. now rewrite R, (G _ _ _ Hk R).
  - destruct (Selector.findAvailableProxy_run available configProxy candidates)
      as (k & s' & Hk & R).
    exact (G _ _ _ Hk R).
Qed.

(** C9. What the selector returns is the empty string, the preferred
    address or a member of the candidate list; and a returned address that
    is not empty was given to the prober, which found it available. *)
Theorem findAvailableProxy_result_domain configProxy candidates sched s r :
  srun configProxy candidates sched Selector.init = Some s ->
  Selector.returned s = Some r ->
  (r = "" \/ r = configProxy \/ r ∈ candidates)
  /\ (r <> "" ->
      available r = true /\ exists site, (site, r) ∈ Selector.probes s).
Proof.
  intros H R.
  destruct (Selector.sel_run_result _ _ _ _ _ _ H R)
    as [(W & -> & ->)|(_ & [(Hr & Hra & (i & Hi))|(-> & _)])].
  - split; [auto|]. intros _. split.
    + unfold Selector.wins in W. now apply andb_true_iff in W as [_ W].
    + exists Selector.Preferred. simpl. now apply list_elem_of_singleton.
  - split; [auto|]. intros _. split; [exact Hra | eauto].
  - split; [auto | done].
Qed.

End Claims.

(** C10. Each entry's path is the join of the temporary directory and
    the entry's name, and the guard of line 209 passes exactly the joined
    paths that lie strictly inside that directory.  When the joined path
    of an entry escapes it, the loop ends in the fatal error of line 210
    (unless an earlier entry already ended it), and the calls made to the
    file system are those of the entries before: none for this entry or
    any later one.  Every call made names the temporary directory or a
    path strictly inside it. *)
Theorem updateFrontend_rejects_traversal fails before f after :
  Frontend.escapes Frontend.tmpDir (Frontend.Join Frontend.tmpDir (Frontend.Name f)) ->
  Frontend.guard (Frontend.Join Frontend.tmpDir (Frontend.Name f)) = false
  /\ Frontend.extract_one fails f
     = (Frontend.Fatal (Frontend.IllegalPath
                          (Frontend.Join Frontend.tmpDir (Frontend.Name f))), [])
  /\ Frontend.extract fails (before ++ f :: after)
     = match Frontend.extract fails before with
       | (Frontend.Done, ops) =>
           (Frontend.Fatal (Frontend.IllegalPath
                              (Frontend.Join Frontend.tmpDir (Frontend.Name f))), ops)
       | stopped => stopped
       end
  /\ (forall name, Frontend.guard (Frontend.Join Frontend.tmpDir name) = true
                   <-> Frontend.within Frontend.tmpDir
                         (Frontend.Join Frontend.tmpDir name))
  /\ (forall op, op ∈ (Frontend.extract fails (before ++ f :: after)).2 ->
        Frontend.inside Frontend.tmpDir (Frontend.path_of op)).
Proof.
  intros Hesc.
  assert (Hg : Frontend.guard (Frontend.Join Frontend.tmpDir (Frontend.Name f)) = false).
  { apply not_true_is_false. intros Hg. apply Hesc. now apply Frontend.guard_within. }
  assert (H1 : Frontend.extract_one fails f
               = (Frontend.Fatal (Frontend.IllegalPath
                    (Frontend.Join Frontend.tmpDir (Frontend.Name f))), [])).
  { unfold Frontend.extract_one. now rewrite Hg. }
  split; [exact Hg|]. split; [exact H1|].
  split; [|split; [apply Frontend.guard_within | apply Frontend.extract_inside]].
  induction before as [|g before IH].
  - simpl. rewrite H1. reflexivity.
  - simpl. destruct (Frontend.extract_one fails g) as [[|why] ops]; [|reflexivity].
    rewrite IH. destruct (Frontend.extract fails before) as [[|why] ops'].
    + now rewrite app_nil_r || reflexivity.
    + reflexivity.
Qed.

(** ** The theorems at work on the sample network *)

Lemma isProxyAvailable_all_targets_witness :
  exists s,
    Sample.run_prober "http://127.0.0.1:7890" (Sample.schedule ++ [Prober.Main; Prober.Main]) = Some s
    /\ (forall b, Prober.returned s = Some b ->
          (b = true <->
           exists u, Sample.url_Parse "http://127.0.0.1:7890" = Some u
                     /\ forall t, t ∈ Prober.testURLs ->
                          Sample.Get u (Prober.url t) = Prober.Resp (Prober.expectCode t))).
Proof.
  destruct (Sample.run_prober "http://127.0.0.1:7890" (Sample.schedule ++ [Prober.Main; Prober.Main]))
    as [s|] eqn:E.
  - exists s. split; [reflexivity|].
    exact (proj1 (isProxyAvailable_all_targets string Sample.url_Parse Sample.Get _ _ _ E)).
  - vm_compute in E. discriminate.
Defined.

(** An address with a line feed in it. *)
Definition malformed : string := String (ascii_of_nat 10) "http://127.0.0.1:7890".

Lemma isProxyAvailable_malformed_witness :
  Sample.url_Parse malformed = None
  /\ exists s, Sample.run_prober malformed [Prober.Main] = Some s
               /\ Prober.requests s = [] /\ Prober.pool s = []
               /\ (forall b, Prober.returned s = Some b -> b = false).
Proof.
  assert (Hp : Sample.url_Parse malformed = None) by reflexivity.
  split; [exact Hp|].
  destruct (Sample.run_prober malformed [Prober.Main]) as [s|] eqn:E.
  - exists s. split; [reflexivity|].
    destruct (isProxyAvailable_malformed string Sample.url_Parse Sample.Get _ _ _ Hp E)
      as (A & B & C & _).
    exact (conj A (conj B C)).
  - vm_compute in E. discriminate.
Defined.

Lemma isProxyAvailable_waits_for_all_witness :
  exists s,
    Sample.run_prober "http://127.0.0.1:10808" Sample.schedule = Some s
    /\ Prober.returned s = Some false
    /\ (forall g, g ∈ Prober.pool s -> Prober.pc g = Prober.PExit)
    /\ length (Prober.collected s) = length (Prober.pool s).
Proof.
  destruct (Sample.run_prober "http://127.0.0.1:10808" Sample.schedule) as [s|] eqn:E.
  - assert (R : Prober.returned s = Some false).
    { vm_compute in E. injection E as <-. reflexivity. }
    exists s. split; [reflexivity|]. split; [exact R|].
    destruct (isProxyAvailable_waits_for_all string Sample.url_Parse Sample.Get _ _ _ _ E R)
      as (A & B & _).
    exact (conj A B).
  - vm_compute in E. discriminate.
Defined.

(** Another interleaving: the first probe runs to its end before the
    second starts. *)
Definition schedule' : list Prober.tid :=
  [ Prober.Main; Prober.Main; Prober.Go 0; Prober.Go 0; Prober.Go 0; Prober.Main;
    Prober.Go 1; Prober.Go 1; Prober.Go 1; Prober.Main; Prober.Main; Prober.Main;
    Prober.Main; Prober.Main; Prober.Main ].

Lemma isProxyAvailable_idempotent_witness :
  exists s1 s2 b1 b2,
    Sample.run_prober "http://127.0.0.1:7890" (Sample.schedule ++ [Prober.Main; Prober.Main]) = Some s1
    /\ Prober.returned s1 = Some b1
    /\ Sample.run_prober "http://127.0.0.1:7890" schedule' = Some s2
    /\ Prober.returned s2 = Some b2
    /\ b1 = b2 /\ Prober.requests s1 ≡ₚ Prober.requests s2.
Proof.
  destruct (Sample.run_prober "http://127.0.0.1:7890" (Sample.schedule ++ [Prober.Main; Prober.Main]))
    as [s1|] eqn:E1; [|vm_compute in E1; discriminate].
  destruct (Sample.run_prober "http://127.0.0.1:7890" schedule')
    as [s2|] eqn:E2; [|vm_compute in E2; discriminate].
  assert (R1 : Prober.returned s1 = Some true).
  { vm_compute in E1. injection E1 as <-. reflexivity. }
  assert (R2 : Prober.returned s2 = Some true).
  { vm_compute in E2. injection E2 as <-. reflexivity. }
  exists s1, s2, true, true.
  split; [reflexivity|]. split; [exact R1|]. split; [reflexivity|]. split; [exact R2|].
  exact (isProxyAvailable_idempotent string Sample.url_Parse Sample.Get _ _ _ _ _ _ _
           E1 R1 E2 R2).
Defined.

Lemma findAvailableProxy_preferred_first_witness :
  exists s,
    Sample.run_selector "http://127.0.0.1:7890" Sample.commonProxies [Selector.Main] = Some s
    /\ (forall r, Selector.returned s = Some r -> r = "http://127.0.0.1:7890")
    /\ Selector.pool s = []
    /\ (forall i c, (Selector.Candidate i, c) ∉ Selector.probes s).
Proof.
  assert (Hne : "http://127.0.0.1:7890" <> "") by discriminate.
  assert (Hav : Sample.isProxyAvailable "http://127.0.0.1:7890" = true)
    by (vm_compute; reflexivity).
  destruct (Sample.run_selector "http://127.0.0.1:7890" Sample.commonProxies [Selector.Main])
    as [s|] eqn:E.
  - exists s. split; [reflexivity|].
    destruct (findAvailableProxy_preferred_first string Sample.url_Parse Sample.Get
                _ _ _ _ Hne Hav E) as (A & B & _ & C & _).
    exact (conj A (conj B C)).
  - vm_compute in E. discriminate.
Defined.

(** The call of [main] on the sample network: the preferred address
    fails, the pool is started, and the candidates on ports 10808 and 7890
    are probed before the body reads the channel. *)
Definition race : list Selector.tid :=
  [ Selector.Main; Selector.Main; Selector.Main; Selector.Main; Selector.Main;
    Selector.Main; Selector.Main; Selector.Main;
    Selector.Go 4; Selector.Go 0; Selector.Go 0; Selector.Main ].

Lemma findAvailableProxy_available_candidate_witness :
  exists s,
    Sample.run_selector "http://127.0.0.1:10808" Sample.commonProxies race = Some s
    /\ Sample.isProxyAvailable "http://127.0.0.1:10808" = false
    /\ (forall r, Selector.returned s = Some r ->
          r ∈ Sample.commonProxies /\ Sample.isProxyAvailable r = true
          /\ exists i, (Selector.Candidate i, r) ∈ Selector.probes s).
Proof.
  assert (Hp : Sample.isProxyAvailable "http://127.0.0.1:10808" = false)
    by (vm_compute; reflexivity).
  assert (Hc : exists c, c ∈ Sample.commonProxies /\ Sample.isProxyAvailable c = true).
  { exists "http://127.0.0.1:7890". split; [constructor | vm_compute; reflexivity]. }
  destruct (Sample.run_selector "http://127.0.0.1:10808" Sample.commonProxies race)
    as [s|] eqn:E.
  - exists s. split; [reflexivity|]. split; [exact Hp|].
    exact (proj1 (findAvailableProxy_available_candidate string Sample.url_Parse
                    Sample.Get _ _ _ _ (or_intror Hp) Hc E)).
  - vm_compute in E. discriminate.
Defined.

(** No preference, and a pool of one address where nothing listens. *)
Definition lost : list Selector.tid :=
  [ Selector.Main; Selector.Main; Selector.Main; Selector.Go 0; Selector.Go 0;
    Selector.Waiter; Selector.Waiter; Selector.Main ].

Lemma findAvailableProxy_none_witness :
  exists s,
    Sample.run_selector "" ["http://127.0.0.1:7891"] lost = Some s
    /\ Selector.returned s = Some ""
    /\ (forall r, Selector.returned s = Some r -> r = "").
Proof.
  assert (Hall : forall c, c ∈ ["http://127.0.0.1:7891"] -> Sample.isProxyAvailable c = false).
  { intros c Hc. apply list_elem_of_singleton in Hc. subst c. vm_compute. reflexivity. }
  destruct (Sample.run_selector "" ["http://127.0.0.1:7891"] lost) as [s|] eqn:E.
  - exists s. split; [reflexivity|]. split.
    + vm_compute in E. injection E as <-. reflexivity.
    + exact (proj1 (findAvailableProxy_none string Sample.url_Parse Sample.Get
                      _ _ _ _ (or_introl eq_refl) Hall E)).
  - vm_compute in E. discriminate.
Defined.

Lemma findAvailableProxy_result_domain_witness :
  exists s r,
    Sample.run_selector "http://127.0.0.1:10808" Sample.commonProxies race = Some s
    /\ Selector.returned s = Some r
    /\ (r = "" \/ r = "http://127.0.0.1:10808" \/ r ∈ Sample.commonProxies)
    /\ (r <> "" -> Sample.isProxyAvailable r = true
                   /\ exists site, (site, r) ∈ Selector.probes s).
Proof.
  destruct (Sample.run_selector "http://127.0.0.1:10808" Sample.commonProxies race)
    as [s|] eqn:E; [|vm_compute in E; discriminate].
  assert (R : Selector.returned s = Some "http://127.0.0.1:7890").
  { vm_compute in E. injection E as <-. reflexivity. }
  exists s, "http://127.0.0.1:7890". split; [reflexivity|]. split; [exact R|].
  exact (findAvailableProxy_result_domain string Sample.url_Parse Sample.Get _ _ _ _ _ E R).
Defined.

(** An archive whose second entry climbs out of the directory. *)
Definition index_html : Frontend.zipFile :=
  Frontend.ZipFile "dist/index.html" false "<html></html>" false.
Definition climber : Frontend.zipFile :=
  Frontend.ZipFile "../../etc/cron.d/job" false "* * * * * root sh" false.

Lemma updateFrontend_rejects_traversal_witness :
  Frontend.Join Frontend.tmpDir (Frontend.Name climber) = "../etc/cron.d/job"
  /\ Frontend.escapes Frontend.tmpDir "../etc/cron.d/job"
  /\ Frontend.extract (fun _ => false) ([index_html] ++ climber :: [index_html])
     = (Frontend.Fatal (Frontend.IllegalPath "../etc/cron.d/job"),
        [Frontend.MkdirAll "dist_temp/dist";
         Frontend.OpenFile "dist_temp/dist/index.html";
         Frontend.Copy "dist_temp/dist/index.html" "<html></html>"]).
Proof.
  assert (Hj : Frontend.Join Frontend.tmpDir (Frontend.Name climber) = "../etc/cron.d/job")
    by reflexivity.
  assert (He : Frontend.escapes Frontend.tmpDir
                 (Frontend.Join Frontend.tmpDir (Frontend.Name climber))).
  { intros (rest & _ & _ & H). vm_compute in H. discriminate. }
  split; [exact Hj|]. split; [exact He|].
  destruct (updateFrontend_rejects_traversal (fun _ => false) [index_html] climber
              [index_html] He) as (_ & _ & H & _ & _).
  rewrite H. reflexivity.
Defined.


(** * The release pipeline (main.go)

    The functions of [main.go] run one after the other: no goroutine is
    started.  They are embedded over an explicit world (the files, the
    working directory, the commands run so far); a [log.Fatal] ends the
    process, so it is the end of the computation, and deferred calls do
    not run after it. *)

(** ** [runGitCommands] (main.go, lines 80-110) *)

Module Git.

(** The anonymous struct of [cmds] (lines 82-85). *)
Record cmd := Cmd { args : list string; desc : string }.

(** Line 81: [fmt.Sprintf("chore(%s): update to %s", component, tag)]. *)
Definition commitMsg (component tag : string) : string :=
  "chore(" +:+ component +:+ "): update to " +:+ tag.

(** Lines 82-94. *)
Definition cmds (relPath tag : string) (push : bool) (component : string) : list cmd :=
  [ Cmd ["git"; "add"; relPath] "git 添加";
    Cmd ["git"; "commit"; "-m"; commitMsg component tag] "git 提交" ]
  ++ (if push then [Cmd ["git"; "push"; "origin"; "main"] "git 推送"] else []).

Section Run.
(** Whether [exec.Command(...).CombinedOutput()] ends in an error, given
    the commands run before it. *)
Variable command_err : list (list string) -> list string -> bool.

(** The loop of lines 96-101 over the commands run so far: the
    description of the command that failed, if one did. *)
Fixpoint run_cmds (cs : list cmd) (ran : list (list string)) :
    option string * list (list string) :=
  match cs with
  | [] => (None, ran)
  | c :: rest =>
      if command_err ran (args c) then (Some (desc c), ran ++ [args c])
      else run_cmds rest (ran ++ [args c])
  end.

Definition runGitCommands (relPath tag : string) (push : bool) (component : string)
    (ran : list (list string)) : option string * list (list string) :=
  run_cmds (cmds relPath tag push component) ran.

End Run.
End Git.

(** ** Fetching, hashing and [updateBackend] (main.go, lines 21-78 and 112-171) *)

Module Updater.

Record ReleaseAsset := { Name : string; BrowserDownloadURL : string }.
Record Release := { TagName : string; Assets : list ReleaseAsset }.

(** What [http.Get] hands back: an error, or a response with its status
    code and a body; the body is [None] when reading it fails. *)
Inductive reply := Refused | Reply (StatusCode : Z) (Body : option string).

(** The files by absolute path, the working directory, and the commands
    run so far, oldest first. *)
Record world := World {
  files : gmap string string;
  cwd : string;
  ran : list (list string)
}.

(** What a failed [os.WriteFile] leaves behind: nothing changed, or a
    file cut short. *)
Inductive wrote := Written | NotWritten | CutShort (part : string).

Inductive hashed := Hash (sum : string) | NotExist | OtherErr.

Inductive fatal :=
| FetchFailed       (* line 115 *)
| AssetMissing      (* line 126 *)
| DownloadFailed    (* line 134 *)
| CompressFailed    (* line 139 *)
| WriteFailed       (* line 157 *)
| ChdirFailed       (* line 163 *)
| GitFailed (step : string).   (* line 169 *)

Inductive outcome := Returned | Fatal (why : fatal).

(** An absolute path for a path given relative to the working
    directory. *)
Definition resolve (wd path : string) : string :=
  match path with
  | String c _ => if Frontend.is_sep c then Frontend.Clean path else Frontend.Join wd path
  | EmptyString => Frontend.Join wd path
  end.

(** The loops of lines 118-124 and 179-185: the URL of the first asset
    with the given name, the empty string when there is none. *)
Fixpoint find_asset (name : string) (assets : list ReleaseAsset) : string :=
  match assets with
  | [] => ""
  | asset :: rest =>
      if String.eqb (Name asset) name then BrowserDownloadURL asset
      else find_asset name rest
  end.

Section Host.
Variable http_Get : string -> reply.
(** [json.NewDecoder(resp.Body).Decode(&release)]. *)
Variable json_Decode : string -> option Release.
(** [zstd.NewWriter] fails; [EncodeAll]. *)
Variable zstd_NewWriter_err : bool.
Variable zstd_EncodeAll : string -> string.
Variable sha256_Sum256 : string -> string.
(** [os.Open] or the read fails for a reason other than a missing file. *)
Variable open_err : string -> bool.
Variable write_result : string -> string -> wrote.
Variable chdir_err : string -> bool.
Variable getwd_err : bool.
Variable command_err : list (list string) -> list string -> bool.
(** [filepath.Rel], with the empty string for its error. *)
Variable filepath_Rel : string -> string -> string.

(** Lines 31-48. *)
Definition fetchLatestRelease (repo : string) : option Release :=
  match http_Get ("https://api.github.com/repos/" +:+ repo +:+ "/releases/latest") with
  | Refused => None
  | Reply status body =>
      if negb (status =? 200)%Z then None
      else match body with
           | Some b => json_Decode b
           | None => None
           end
  end.

(** Lines 50-57: the status code is not looked at. *)
Definition downloadFile (url : string) : option string :=
  match http_Get url with
  | Refused => None
  | Reply _ body => body
  end.

(** Lines 59-65. *)
Definition compressZstd (data : string) : option string :=
  if zstd_NewWriter_err then None else Some (zstd_EncodeAll data).

(** Lines 67-78. *)
Definition fileHash (w : world) (path : string) : hashed :=
  match files w !! resolve (cwd w) path with
  | None => NotExist
  | Some data => if open_err (resolve (cwd w) path) then OtherErr
                 else Hash (sha256_Sum256 data)
  end.

(** [os.WriteFile]. *)
Definition WriteFile (path data : string) (w : world) : option world * world :=
  let key := resolve (cwd w) path in
  match write_result key data with
  | Written => (Some (World (<[key := data]> (files w)) (cwd w) (ran w)),
                World (<[key := data]> (files w)) (cwd w) (ran w))
  | NotWritten => (None, w)
  | CutShort part => (None, World (<[key := part]> (files w)) (cwd w) (ran w))
  end.

(** [os.Chdir]: [None] for its error. *)
Definition Chdir (dir : string) (w : world) : option world :=
  if String.eqb dir "" then None
  else if chdir_err (resolve (cwd w) dir) then None
  else Some (World (files w) (resolve (cwd w) dir) (ran w)).

(** [os.Getwd], the empty string with its error. *)
Definition Getwd (w : world) : string := if getwd_err then "" else cwd w.

(** The deferred [os.Chdir(originalWd)] of line 165: its error is
    dropped. *)
Definition chdir_back (originalWd : string) (w : world) : world :=
  match Chdir originalWd w with
  | Some w' => w'
  | None => w
  end.

(** [bytes.Equal]. *)
Definition bytes_Equal (a b : string) : bool := String.eqb a b.

(** Lines 112-171. *)
Definition updateBackend (destDir gitDir : string) (push : bool) (w : world) :
    outcome * world :=
  match fetchLatestRelease "sub-store-org/Sub-Store" with
  | None => (Fatal FetchFailed, w)
  | Some release =>
      let downloadURL := find_asset "sub-store.bundle.js" (Assets release) in
      if String.eqb downloadURL "" then (Fatal AssetMissing, w)
      else
        match downloadFile downloadURL with
        | None => (Fatal DownloadFailed, w)
        | Some jsData =>
            match compressZstd jsData with
            | None => (Fatal CompressFailed, w)
            | Some compressed =>
                let destPath := Frontend.Join destDir "sub-store.bundle.js.zst" in
                let currentHash :=
                  match fileHash w destPath with Hash sum => sum | _ => "" end in
                let newHash := sha256_Sum256 compressed in
                if bytes_Equal currentHash newHash then (Returned, w)
                else
                  match WriteFile destPath compressed w with
                  | (None, w1) => (Fatal WriteFailed, w1)
                  | (Some _, w1) =>
                      let originalWd := Getwd w1 in
                      match Chdir gitDir w1 with
                      | None => (Fatal ChdirFailed, w1)
                      | Some w2 =>
                          let relPath := filepath_Rel gitDir destPath in
                          match Git.runGitCommands command_err relPath
                                  (TagName release) push "sub-store" (ran w2) with
                          | (Some step, ran') =>
                              (Fatal (GitFailed step), World (files w2) (cwd w2) ran')
                          | (None, ran') =>
                              (Returned,
                               chdir_back originalWd (World (files w2) (cwd w2) ran'))
                          end
                      end
                  end
            end
        end
  end.

End Host.
End Updater.

(** ** Properties of [runGitCommands] *)

Section GitFacts.
Variable command_err : list (list string) -> list string -> bool.

(** Every command of [before] succeeded, each run after the ones before
    it. *)
Definition all_passed (ran : list (list string)) (before : list Git.cmd) : Prop :=
  forall pre c post, before = pre ++ c :: post ->
    command_err (ran ++ (Git.args <$> pre)) (Git.args c) = false.

Lemma all_passed_nil ran : all_passed ran [].
Proof. intros [|c0 pre] c post H; discriminate H. Qed.

Lemma all_passed_cons ran c before :
  command_err ran (Git.args c) = false ->
  all_passed (ran ++ [Git.args c]) before ->
  all_passed ran (c :: before).
Proof.
  intros Hc Hb [|c' pre] d post H; simpl in *.
  - injection H as <- _. now rewrite app_nil_r.
  - injection H as <- ->. specialize (Hb pre d post eq_refl).
    now rewrite <- app_assoc in Hb.
Qed.

Lemma run_cmds_spec : forall cs ran,
  match Git.run_cmds command_err cs ran with
  | (None, ran') => ran' = ran ++ (Git.args <$> cs) /\ all_passed ran cs
  | (Some d, ran') =>
      exists before c after,
        cs = before ++ c :: after /\ d = Git.desc c
        /\ ran' = ran ++ (Git.args <$> before) ++ [Git.args c]
        /\ command_err (ran ++ (Git.args <$> before)) (Git.args c) = true
        /\ all_passed ran before
  end.
Proof.
  induction cs as [|c cs IH]; simpl; intros ran.
  - split; [now rewrite app_nil_r | apply all_passed_nil].
  - destruct (command_err ran (Git.args c)) eqn:E.
    + exists [], c, cs. simpl. rewrite app_nil_r.
      repeat split; [exact E | apply all_passed_nil].
    + specialize (IH (ran ++ [Git.args c])).
      destruct (Git.run_cmds command_err cs (ran ++ [Git.args c])) as [[d|] ran'].
      * destruct IH as (before & c' & after & -> & -> & -> & Hc & Hb).
        exists (c :: before), c', after. simpl.
        rewrite <- !app_assoc in *. simpl in *.
        repeat split; [exact Hc | now apply all_passed_cons].
      * destruct IH as [-> Hb]. rewrite <- app_assoc. simpl.
        split; [reflexivity | now apply all_passed_cons].
Qed.

(** X1. [runGitCommands] runs its commands in order and stops at the
    first one that fails: without an error every command was run and
    passed; with an error the commands run are those up to the failing
    one, all before it passed, none after it was run, and the error
    names the failing step. *)
Theorem runGitCommands_stops_at_first_failure relPath tag push component ran :
  let cs := Git.cmds relPath tag push component in
  match Git.runGitCommands command_err relPath tag push component ran with
  | (None, ran') => ran' = ran ++ (Git.args <$> cs) /\ all_passed ran cs
  | (Some d, ran') =>
      exists before c after,
        cs = before ++ c :: after /\ d = Git.desc c
        /\ ran' = ran ++ (Git.args <$> before) ++ [Git.args c]
        /\ command_err (ran ++ (Git.args <$> before)) (Git.args c) = true
        /\ all_passed ran before
  end.
Proof. intros cs. apply run_cmds_spec. Qed.

(** X2. [git push origin main] is run only when the push flag is set and
    both [git add] and [git commit] have passed; [git add] is always the
    first command run. *)
Theorem runGitCommands_push_guarded relPath tag push component ran :
  let add := ["git"; "add"; relPath] in
  let commit := ["git"; "commit"; "-m"; Git.commitMsg component tag] in
  exists new,
    snd (Git.runGitCommands command_err relPath tag push component ran)
      = ran ++ add :: new
    /\ (["git"; "push"; "origin"; "main"] ∈ new ->
        push = true
        /\ command_err ran add = false
        /\ command_err (ran ++ [add]) commit = false)
    /\ (fst (Git.runGitCommands command_err relPath tag push component ran) = None ->
        commit ∈ new /\ (push = true -> ["git"; "push"; "origin"; "main"] ∈ new)).
Proof.
  intros add commit. unfold Git.runGitCommands, Git.cmds. simpl.
  fold add. fold commit.
  destruct (command_err ran add) eqn:Ea; simpl.
  { exists []. rewrite elem_of_nil. repeat split; try done. }
  destruct (command_err (ran ++ [add]) commit) eqn:Ec; simpl.
  { exists [commit]. rewrite <- app_assoc. simpl. split; [reflexivity|].
    split; [|done]. intros H. apply list_elem_of_singleton in H. discriminate H. }
  destruct push; simpl.
  - destruct (command_err ((ran ++ [add]) ++ [commit]) _) eqn:Ep; simpl;
      exists [commit; ["git"; "push"; "origin"; "main"]];
      rewrite <- !app_assoc; simpl; (split; [reflexivity|]);
      (split; [done|]); intros; try done.
    split; [|intros _]; set_solver.
  - exists [commit]. rewrite <- !app_assoc. simpl. split; [reflexivity|].
    split.
    + intros H. apply list_elem_of_singleton in H. discriminate H.
    + intros _. split; [set_solver | done].
Qed.

End GitFacts.

(** ** Properties of the asset lookup and of [updateBackend] *)

(** X3. The asset loop returns the download URL of the first asset with
    the name looked for, and the empty string when no asset has it; so
    a result that is not empty belongs to an asset of that name which
    no asset of that name precedes. *)
Theorem find_asset_first name assets :
  (Forall (fun a => Updater.Name a <> name) assets
   /\ Updater.find_asset name assets = "")
  \/ (exists before a after,
        assets = before ++ a :: after
        /\ Forall (fun b => Updater.Name b <> name) before
        /\ Updater.Name a = name
        /\ Updater.find_asset name assets = Updater.BrowserDownloadURL a).
Proof.
  induction assets as [|a assets IH]; simpl.
  - left. split; [constructor | reflexivity].
  - destruct (String.eqb (Updater.Name a) name) eqn:E.
    + apply String.eqb_eq in E. right. exists [], a, assets. simpl.
      repeat split; [constructor | exact E].
    + apply String.eqb_neq in E.
      destruct IH as [[Hn Hr]|(before & b & after & -> & Hb & Hn & Hr)].
      * left. split; [now constructor | exact Hr].
      * right. exists (a :: before), b, after. simpl.
        repeat split; [now constructor | exact Hn | exact Hr].
Qed.

Section BackendFacts.
Variable http_Get : string -> Updater.reply.
Variable json_Decode : string -> option Updater.Release.
Variable zstd_NewWriter_err : bool.
Variable zstd_EncodeAll : string -> string.
Variable sha256_Sum256 : string -> string.
Variable open_err : string -> bool.
Variable write_result : string -> string -> Updater.wrote.
Variable chdir_err : string -> bool.
Variable getwd_err : bool.
Variable command_err : list (list string) -> list string -> bool.
Variable filepath_Rel : string -> string -> string.

Local Abbreviation updateBackend :=
  (Updater.updateBackend http_Get json_Decode zstd_NewWriter_err zstd_EncodeAll
     sha256_Sum256 open_err write_result chdir_err getwd_err command_err
     filepath_Rel).
Local Abbreviation fetchLatestRelease := (Updater.fetchLatestRelease http_Get json_Decode).
Local Abbreviation downloadFile := (Updater.downloadFile http_Get).
Local Abbreviation fileHash := (Updater.fileHash sha256_Sum256 open_err).

(** The destination of the backend: [destPath], and the file it names
    when the function is entered. *)
Definition backendPath (destDir : string) : string :=
  Frontend.Join destDir "sub-store.bundle.js.zst".
Definition backendKey (destDir : string) (w : Updater.world) : string :=
  Updater.resolve (Updater.cwd w) (backendPath destDir).

(** The bytes the latest release gives for the destination. *)
Definition latest_backend : option (Updater.Release * string) :=
  match fetchLatestRelease "sub-store-org/Sub-Store" with
  | None => None
  | Some release =>
      let url := Updater.find_asset "sub-store.bundle.js" (Updater.Assets release) in
      if String.eqb url "" then None
      else match downloadFile url with
           | None => None
           | Some jsData =>
               if zstd_NewWriter_err then None
               else Some (release, zstd_EncodeAll jsData)
           end
  end.

Lemma chdir_back_files wd w :
  Updater.files (Updater.chdir_back chdir_err wd w) = Updater.files w
  /\ Updater.ran (Updater.chdir_back chdir_err wd w) = Updater.ran w.
Proof.
  unfold Updater.chdir_back, Updater.Chdir.
  destruct (String.eqb wd ""); [done|].
  destruct (chdir_err _); done.
Qed.

(** The cases of [updateBackend], read off its body. *)
Inductive backend_case (destDir gitDir : string) (push : bool) (w : Updater.world) :
    Updater.outcome -> Updater.world -> Prop :=
| case_upstream why :
    latest_backend = None ->
    why ∈ [Updater.FetchFailed; Updater.AssetMissing; Updater.DownloadFailed;
           Updater.CompressFailed] ->
    backend_case destDir gitDir push w (Updater.Fatal why) w
| case_same release compressed :
    latest_backend = Some (release, compressed) ->
    Updater.bytes_Equal
      (match fileHash w (backendPath destDir) with Updater.Hash sum => sum | _ => "" end)
      (sha256_Sum256 compressed) = true ->
    backend_case destDir gitDir push w Updater.Returned w
| case_write_failed release compressed w1 :
    latest_backend = Some (release, compressed) ->
    Updater.bytes_Equal
      (match fileHash w (backendPath destDir) with Updater.Hash sum => sum | _ => "" end)
      (sha256_Sum256 compressed) = false ->
    Updater.WriteFile write_result (backendPath destDir) compressed w = (None, w1) ->
    backend_case destDir gitDir push w (Updater.Fatal Updater.WriteFailed) w1
| case_written release compressed o w' :
    latest_backend = Some (release, compressed) ->
    Updater.bytes_Equal
      (match fileHash w (backendPath destDir) with Updater.Hash sum => sum | _ => "" end)
      (sha256_Sum256 compressed) = false ->
    write_result (backendKey destDir w) compressed = Updater.Written ->
    Updater.files w' = <[backendKey destDir w := compressed]> (Updater.files w) ->
    (Updater.ran w' = Updater.ran w /\ o = Updater.Fatal Updater.ChdirFailed
                                     /\ Updater.cwd w' = Updater.cwd w
     \/ (Updater.Chdir chdir_err gitDir w <> None
         /\ exists r,
           (r, Updater.ran w')
           = Git.runGitCommands command_err (filepath_Rel gitDir (backendPath destDir))
               (Updater.TagName release) push "sub-store" (Updater.ran w)
           /\ match r with
              | Some step => o = Updater.Fatal (Updater.GitFailed step)
              | None =>
                  o = Updater.Returned
                  /\ Updater.cwd w'
                     = Updater.cwd
                         (Updater.chdir_back chdir_err
                            (Updater.Getwd getwd_err w)
                            (Updater.World (Updater.files w)
                               (Updater.resolve (Updater.cwd w) gitDir)
                               (Updater.ran w)))
              end)) ->
    backend_case destDir gitDir push w o w'.

Lemma updateBackend_cases destDir gitDir push w :
  backend_case destDir gitDir push w
    (fst (updateBackend destDir gitDir push w))
    (snd (updateBackend destDir gitDir push w)).
Proof.
  unfold Updater.updateBackend.
  pose proof (eq_refl latest_backend) as L. unfold latest_backend at 2 in L.
  destruct (fetchLatestRelease "sub-store-org/Sub-Store") as [release|]; simpl;
    [|apply case_upstream; [exact L | set_solver]].
  destruct (String.eqb _ "") eqn:Eu; simpl;
    [apply case_upstream; [exact L | set_solver]|].
  destruct (downloadFile _) as [jsData|]; simpl;
    [|apply case_upstream; [exact L | set_solver]].
  unfold Updater.compressZstd.
  destruct zstd_NewWriter_err; simpl;
    [apply case_upstream; [exact L | set_solver]|].
  fold (backendPath destDir).
  destruct (Updater.bytes_Equal _ _) eqn:Eh; simpl;
    [eapply case_same; [exact L | exact Eh]|].
  destruct (Updater.WriteFile write_result (backendPath destDir)
              (zstd_EncodeAll jsData) w) as [[w0|] w1] eqn:Ew; simpl;
    [|eapply case_write_failed; [exact L | exact Eh | exact Ew]].
  unfold Updater.WriteFile in Ew. fold (backendKey destDir w) in Ew.
  destruct (write_result (backendKey destDir w) (zstd_EncodeAll jsData)) eqn:Er;
    try discriminate Ew.
  injection Ew as _ <-.
  unfold Updater.Chdir. simpl.
  destruct (String.eqb gitDir "") eqn:Eg; simpl.
  { eapply case_written; [exact L | exact Eh | exact Er | reflexivity |].
    left. done. }
  destruct (chdir_err (Updater.resolve (Updater.cwd w) gitDir)) eqn:Ed; simpl.
  { eapply case_written; [exact L | exact Eh | exact Er | reflexivity |].
    left. done. }
  destruct (Git.runGitCommands _ _ _ _ _ _) as [[step|] ran'] eqn:Eg'; simpl.
  - eapply case_written; [exact L | exact Eh | exact Er | reflexivity |].
    right. split.
    + unfold Updater.Chdir. rewrite Eg, Ed. done.
    + exists (Some step). simpl. rewrite Eg'. done.
  - eapply case_written; [exact L | exact Eh | exact Er | |].
    + now rewrite (proj1 (chdir_back_files _ _)).
    + right. split.
      * unfold Updater.Chdir. rewrite Eg, Ed. done.
      * exists None. rewrite (proj2 (chdir_back_files _ _)). simpl.
        rewrite Eg'. split; [reflexivity|]. split; [reflexivity|].
        unfold Updater.chdir_back, Updater.Chdir, Updater.Getwd. simpl.
        destruct (String.eqb (if getwd_err then "" else Updater.cwd w) "");
          [reflexivity|].
        destruct (chdir_err (Updater.resolve _ (if getwd_err then _ else _)));
          reflexivity.
Qed.

Lemma latest_backend_Some release compressed :
  latest_backend = Some (release, compressed) ->
  exists jsData,
    fetchLatestRelease "sub-store-org/Sub-Store" = Some release
    /\ Updater.find_asset "sub-store.bundle.js" (Updater.Assets release) <> ""
    /\ downloadFile (Updater.find_asset "sub-store.bundle.js" (Updater.Assets release))
       = Some jsData
    /\ zstd_NewWriter_err = false
    /\ compressed = zstd_EncodeAll jsData.
Proof.
  unfold latest_backend.
  destruct (fetchLatestRelease "sub-store-org/Sub-Store") as [rel|]; [|done].
  destruct (String.eqb _ "") eqn:Eu; [done|]. apply String.eqb_neq in Eu.
  destruct (downloadFile _) as [jsData|] eqn:Ed; [|done].
  destruct zstd_NewWriter_err; [done|].
  intros [= <- <-]. exists jsData. done.
Qed.

(** With the destination already holding the latest bytes nothing is
    done. *)
Lemma updateBackend_same destDir gitDir push w release compressed :
  latest_backend = Some (release, compressed) ->
  Updater.bytes_Equal
    (match fileHash w (backendPath destDir) with Updater.Hash sum => sum | _ => "" end)
    (sha256_Sum256 compressed) = true ->
  updateBackend destDir gitDir push w = (Updater.Returned, w).
Proof.
  intros L Eh. unfold Updater.updateBackend, latest_backend in *.
  destruct (fetchLatestRelease "sub-store-org/Sub-Store") as [rel|]; [|done].
  destruct (String.eqb _ "") eqn:Eu; [done|].
  destruct (downloadFile _) as [jsData|] eqn:Ed; [|done].
  unfold Updater.compressZstd.
  destruct zstd_NewWriter_err; [done|].
  injection L as <- <-. fold (backendPath destDir). now rewrite Eh.
Qed.



Lemma WriteFile_ran path data w r w1 :
  Updater.WriteFile write_result path data w = (r, w1) ->
  Updater.ran w1 = Updater.ran w.
Proof.
  unfold Updater.WriteFile. destruct (write_result _ _); now intros [= _ <-].
Qed.


(** X5. When [updateBackend] returns normally the destination holds
    bytes whose SHA-256 is that of the compressed bundle of the latest
    release, whether the file was already there or has just been
    written. *)
Theorem updateBackend_returned_up_to_date destDir gitDir push w :
  (forall d, String.length (sha256_Sum256 d) = 32) ->
  fst (updateBackend destDir gitDir push w) = Updater.Returned ->
  exists release jsData d,
    fetchLatestRelease "sub-store-org/Sub-Store" = Some release
    /\ downloadFile (Updater.find_asset "sub-store.bundle.js" (Updater.Assets release))
       = Some jsData
    /\ Updater.files (snd (updateBackend destDir gitDir push w))
         !! backendKey destDir w = Some d
    /\ sha256_Sum256 d = sha256_Sum256 (zstd_EncodeAll jsData).
Proof.
  intros Hlen.
  destruct (updateBackend_cases destDir gitDir push w)
    as [why _ _|release compressed L Eh|release compressed w1 _ _ _
       |release compressed o w' L _ _ Hf Hr]; try done; intros Ho.
  - apply latest_backend_Some in L as (jsData & Hf & _ & Hd & _ & ->).
    apply String.eqb_eq in Eh. unfold Updater.fileHash in Eh.
    fold (backendKey destDir w) in Eh.
    destruct (Updater.files w !! backendKey destDir w) as [d|] eqn:Ek.
    + destruct (open_err _).
      * specialize (Hlen (zstd_EncodeAll jsData)). now rewrite <- Eh in Hlen.
      * exists release, jsData, d. done.
    + specialize (Hlen (zstd_EncodeAll jsData)). now rewrite <- Eh in Hlen.
  - apply latest_backend_Some in L as (jsData & Hfe & _ & Hd & _ & ->).
    exists release, jsData, (zstd_EncodeAll jsData).
    rewrite Hf, lookup_insert_eq. done.
Qed.

(** X6. Running [updateBackend] again after it has returned normally,
    with the same answers from the network, changes nothing and runs no
    command: the second run returns at the hash comparison. *)
Theorem updateBackend_idempotent destDir gitDir push w :
  let w1 := snd (updateBackend destDir gitDir push w) in
  fst (updateBackend destDir gitDir push w) = Updater.Returned ->
  Updater.cwd w1 = Updater.cwd w ->
  open_err (backendKey destDir w) = false ->
  updateBackend destDir gitDir push w1 = (Updater.Returned, w1).
Proof.
  simpl.
  destruct (updateBackend_cases destDir gitDir push w)
    as [why _ _|release compressed L Eh|release compressed w1 _ _ _
       |release compressed o w' L _ _ Hf _]; try done; intros Ho Hc Hopen.
  - eapply updateBackend_same; eauto.
  - eapply updateBackend_same; [exact L|].
    unfold Updater.fileHash. rewrite Hc. fold (backendKey destDir w).
    rewrite Hf, lookup_insert_eq, Hopen. apply String.eqb_refl.
Qed.


(** X8. [downloadFile] does not look at the status code, so the body of
    any answer to the download, a 404 page as much as the bundle, is
    compressed and written to the destination when that differs from
    what is there. *)
Theorem updateBackend_stores_any_status destDir gitDir push w release status body :
  (forall d, String.length (sha256_Sum256 d) = 32) ->
  fetchLatestRelease "sub-store-org/Sub-Store" = Some release ->
  Updater.find_asset "sub-store.bundle.js" (Updater.Assets release) <> "" ->
  http_Get (Updater.find_asset "sub-store.bundle.js" (Updater.Assets release))
    = Updater.Reply status (Some body) ->
  zstd_NewWriter_err = false ->
  fileHash w (backendPath destDir) <> Updater.Hash (sha256_Sum256 (zstd_EncodeAll body)) ->
  write_result (backendKey destDir w) (zstd_EncodeAll body) = Updater.Written ->
  Updater.files (snd (updateBackend destDir gitDir push w)) !! backendKey destDir w
  = Some (zstd_EncodeAll body).
Proof.
  intros Hlen Hfe Hu Hg Hz Hh Hw.
  assert (L : latest_backend = Some (release, zstd_EncodeAll body)).
  { unfold latest_backend. rewrite Hfe. apply String.eqb_neq in Hu. rewrite Hu.
    unfold Updater.downloadFile. now rewrite Hg, Hz. }
  assert (Hne : Updater.bytes_Equal
            (match fileHash w (backendPath destDir) with
             | Updater.Hash sum => sum | _ => "" end)
            (sha256_Sum256 (zstd_EncodeAll body)) = false).
  { apply String.eqb_neq. intros E.
    destruct (fileHash w (backendPath destDir)) as [sum| |];
      try (specialize (Hlen (zstd_EncodeAll body)); now rewrite <- E in Hlen).
    now subst sum. }
  destruct (updateBackend_cases destDir gitDir push w)
    as [why L' _|rel compressed L' Eh|rel compressed w1 L' _ Hwf
       |rel compressed o w' L' _ _ Hf _]; rewrite L in L'; try done;
    injection L' as <- <-.
  - now rewrite Hne in Eh.
  - unfold Updater.WriteFile in Hwf. fold (backendKey destDir w) in Hwf.
    now rewrite Hw in Hwf.
  - now rewrite Hf, lookup_insert_eq.
Qed.

(** X9. When [updateBackend] returns normally the working directory is
    the one it was entered with, provided [os.Getwd] worked and that
    directory can still be entered. *)
Theorem updateBackend_restores_cwd destDir gitDir push w rest :
  fst (updateBackend destDir gitDir push w) = Updater.Returned ->
  getwd_err = false ->
  Updater.cwd w = String Frontend.PathSeparator rest ->
  Frontend.Clean (Updater.cwd w) = Updater.cwd w ->
  chdir_err (Updater.cwd w) = false ->
  Updater.cwd (snd (updateBackend destDir gitDir push w)) = Updater.cwd w.
Proof.
  destruct (updateBackend_cases destDir gitDir push w)
    as [why _ _|release compressed _ _|release compressed w1 _ _ _
       |release compressed o w' _ _ _ _ Hr]; try done; intros Ho Hg Hc Hcl Hd.
  destruct Hr as [(_ & -> & _)|(_ & [step|] & _ & Hr)]; [done| |].
  - now rewrite Hr in Ho.
  - destruct Hr as [_ ->].
    unfold Updater.chdir_back, Updater.Chdir, Updater.Getwd. rewrite Hg. simpl.
    assert (Hres : forall wd, Updater.resolve wd (Updater.cwd w) = Updater.cwd w).
    { intros wd. unfold Updater.resolve. rewrite Hc.
      unfold Frontend.is_sep. rewrite Ascii.eqb_refl. now rewrite <- Hc. }
    rewrite Hres, Hd. rewrite Hc at 1. simpl. reflexivity.
Qed.

(** X18. Nothing at all changes, no file, not the working directory,
    and no command is run, unless the release was fetched, its bundle
    downloaded and compressed, and the destination did not already hold
    bytes of the same SHA-256. *)
Theorem updateBackend_unchanged_unless_new destDir gitDir push w :
  snd (updateBackend destDir gitDir push w) <> w ->
  exists release jsData,
    fetchLatestRelease "sub-store-org/Sub-Store" = Some release
    /\ downloadFile (Updater.find_asset "sub-store.bundle.js" (Updater.Assets release))
       = Some jsData
    /\ zstd_NewWriter_err = false
    /\ fileHash w (backendPath destDir)
       <> Updater.Hash (sha256_Sum256 (zstd_EncodeAll jsData)).
Proof.
  assert (Hne : forall release compressed,
            latest_backend = Some (release, compressed) ->
            Updater.bytes_Equal
              (match fileHash w (backendPath destDir) with
               | Updater.Hash sum => sum | _ => "" end)
              (sha256_Sum256 compressed) = false ->
            exists release jsData,
              fetchLatestRelease "sub-store-org/Sub-Store" = Some release
              /\ downloadFile
                   (Updater.find_asset "sub-store.bundle.js" (Updater.Assets release))
                 = Some jsData
              /\ zstd_NewWriter_err = false
              /\ fileHash w (backendPath destDir)
                 <> Updater.Hash (sha256_Sum256 (zstd_EncodeAll jsData))).
  { intros release compressed L Eh.
    apply latest_backend_Some in L as (jsData & Hfe & _ & Hd & Hz & ->).
    exists release, jsData. repeat split; try done.
    intros E. rewrite E in Eh. unfold Updater.bytes_Equal in Eh.
    now rewrite String.eqb_refl in Eh. }
  destruct (updateBackend_cases destDir gitDir push w)
    as [why _ _|release compressed _ _|release compressed w1 L Eh _
       |release compressed o w' L Eh _ _ _]; try done; intros _; eauto.
Qed.

(** X19. A write that was not followed by a commit is not made up for:
    when the run ends at the change of directory or at a git command,
    the destination already holds the new bytes, so the next run, started
    in the same directory with the same answers from the network, finds
    the hashes equal and returns without running any git command. *)
Theorem updateBackend_failed_commit_not_retried destDir gitDir push w :
  let w1 := snd (updateBackend destDir gitDir push w) in
  let w2 := Updater.World (Updater.files w1) (Updater.cwd w) (Updater.ran w1) in
  (fst (updateBackend destDir gitDir push w) = Updater.Fatal Updater.ChdirFailed
   \/ exists step,
        fst (updateBackend destDir gitDir push w) = Updater.Fatal (Updater.GitFailed step)) ->
  open_err (backendKey destDir w) = false ->
  updateBackend destDir gitDir push w2 = (Updater.Returned, w2).
Proof.
  simpl.
  destruct (updateBackend_cases destDir gitDir push w)
    as [why _ Hwhy|release compressed _ _|release compressed w1 _ _ _
       |release compressed o w' L _ _ Hf _]; intros Ho Hopen.
  - exfalso. destruct Ho as [Ho|[step Ho]]; injection Ho as ->;
      repeat (apply elem_of_cons in Hwhy as [Hwhy|Hwhy]; [discriminate Hwhy|]);
      inversion Hwhy.
  - destruct Ho as [Ho|[step Ho]]; discriminate Ho.
  - destruct Ho as [Ho|[step Ho]]; discriminate Ho.
  - eapply updateBackend_same; [exact L|].
    unfold Updater.fileHash. simpl. fold (backendKey destDir w).
    rewrite Hf, lookup_insert_eq, Hopen. apply String.eqb_refl.
Qed.

Lemma runGitCommands_no_push relPath tag component ran :
  exists new,
    snd (Git.runGitCommands command_err relPath tag false component ran) = ran ++ new
    /\ ["git"; "push"; "origin"; "main"] ∉ new.
Proof.
  unfold Git.runGitCommands, Git.cmds. simpl.
  destruct (command_err ran _); simpl.
  { eexists. split; [reflexivity|]. intros H.
    apply list_elem_of_singleton in H. discriminate H. }
  destruct (command_err (ran ++ _) _); simpl;
    (eexists; split; [rewrite <- app_assoc; reflexivity|]; intros H;
     apply elem_of_cons in H as [H|H]; [discriminate H|];
     apply list_elem_of_singleton in H; discriminate H).
Qed.

(** X20. Without the push flag [updateBackend] never runs
    [git push origin main], whatever the network, the disk and git
    answer. *)
Theorem updateBackend_push_needs_flag destDir gitDir w :
  exists new,
    Updater.ran (snd (updateBackend destDir gitDir false w)) = Updater.ran w ++ new
    /\ ["git"; "push"; "origin"; "main"] ∉ new.
Proof.
  assert (Hnil : forall l : list (list string),
            exists new, l = l ++ new /\ ["git"; "push"; "origin"; "main"] ∉ new).
  { intros l. exists []. split; [now rewrite app_nil_r | apply not_elem_of_nil]. }
  destruct (updateBackend_cases destDir gitDir false w)
    as [why _ _|release compressed _ _|release compressed w1 _ _ Hw
       |release compressed o w' _ _ _ _ Hr]; try apply Hnil.
  - rewrite (WriteFile_ran _ _ _ _ _ Hw). apply Hnil.
  - destruct Hr as [(-> & _)|(_ & r & Hr & _)]; [apply Hnil|].
    destruct (runGitCommands_no_push (filepath_Rel gitDir (backendPath destDir))
                (Updater.TagName release) "sub-store" (Updater.ran w))
      as (new & Hn & Hp).
    rewrite <- Hr in Hn. simpl in Hn. exists new. split; [exact Hn | exact Hp].
Qed.

End BackendFacts.

(** ** A release host to run [updateBackend] on *)

Module SampleHost.

Definition api : string :=
  "https://api.github.com/repos/sub-store-org/Sub-Store/releases/latest".
Definition bundle : string :=
  "https://github.com/sub-store-org/Sub-Store/releases/download/2.19.1/sub-store.bundle.js".

(** The API answers; the download is answered with the given status. *)
Definition http_Get (status : Z) (url : string) : Updater.reply :=
  if String.eqb url api then Updater.Reply 200 (Some "{release}")
  else if String.eqb url bundle then Updater.Reply status (Some "bundle.js")
  else Updater.Refused.

Definition json_Decode (body : string) : option Updater.Release :=
  if String.eqb body "{release}" then
    Some {| Updater.TagName := "2.19.1";
            Updater.Assets :=
              [ {| Updater.Name := "sub-store.min.js";
                   Updater.BrowserDownloadURL := "https://github.com/min" |};
                {| Updater.Name := "sub-store.bundle.js";
                   Updater.BrowserDownloadURL := bundle |} ] |}
  else None.

(** Stand-ins for the encoder and the digest: a marked copy, and the
    first 32 bytes, padded. *)
Definition zstd_EncodeAll (data : string) : string := "zstd:" +:+ data.

Fixpoint pad (n : nat) (s : string) : string :=
  match n with
  | 0 => ""
  | S n' =>
      match s with
      | EmptyString => String "0" (pad n' "")
      | String c s' => String c (pad n' s')
      end
  end.

Definition sha256_Sum256 (data : string) : string := pad 32 data.

Lemma pad_length : forall n s, String.length (pad n s) = n.
Proof.
  induction n as [|n IH]; intros s; simpl; [reflexivity|].
  destruct s; simpl; now rewrite IH.
Qed.

(** [filepath.Rel] for the base [.] and a relative target. *)
Definition filepath_Rel (base target : string) : string := target.

Definition w0 : Updater.world := Updater.World ∅ "/repo" [].

(** One run on a quiet machine: nothing fails. *)
Abbreviation updateBackend status :=
  (Updater.updateBackend (http_Get status) json_Decode false zstd_EncodeAll
     sha256_Sum256 (fun _ => false) (fun _ _ => Updater.Written) (fun _ => false)
     false (fun _ _ => false) filepath_Rel "assets" "." true).

End SampleHost.

Lemma updateBackend_returned_up_to_date_witness :
  exists release jsData d,
    Updater.fetchLatestRelease (SampleHost.http_Get 200) SampleHost.json_Decode
      "sub-store-org/Sub-Store" = Some release
    /\ Updater.downloadFile (SampleHost.http_Get 200)
         (Updater.find_asset "sub-store.bundle.js" (Updater.Assets release))
       = Some jsData
    /\ Updater.files (snd (SampleHost.updateBackend 200%Z SampleHost.w0))
         !! backendKey "assets" SampleHost.w0 = Some d
    /\ SampleHost.sha256_Sum256 d
       = SampleHost.sha256_Sum256 (SampleHost.zstd_EncodeAll jsData).
Proof.
  apply (updateBackend_returned_up_to_date (SampleHost.http_Get 200)
           SampleHost.json_Decode false SampleHost.zstd_EncodeAll
           SampleHost.sha256_Sum256 (fun _ => false) (fun _ _ => Updater.Written)
           (fun _ => false) false (fun _ _ => false) SampleHost.filepath_Rel
           "assets" "." true SampleHost.w0).
  - intros d. apply SampleHost.pad_length.
  - vm_compute. reflexivity.
Defined.

Lemma updateBackend_idempotent_witness :
  SampleHost.updateBackend 200%Z (snd (SampleHost.updateBackend 200%Z SampleHost.w0))
  = (Updater.Returned, snd (SampleHost.updateBackend 200%Z SampleHost.w0)).
Proof.
  apply (updateBackend_idempotent (SampleHost.http_Get 200)
           SampleHost.json_Decode false SampleHost.zstd_EncodeAll
           SampleHost.sha256_Sum256 (fun _ => false) (fun _ _ => Updater.Written)
           (fun _ => false) false (fun _ _ => false) SampleHost.filepath_Rel
           "assets" "." true SampleHost.w0).
  - vm_compute. reflexivity.
  - vm_compute. reflexivity.
  - reflexivity.
Defined.


Lemma updateBackend_stores_any_status_witness :
  Updater.files (snd (SampleHost.updateBackend 404%Z SampleHost.w0))
    !! backendKey "assets" SampleHost.w0
  = Some (SampleHost.zstd_EncodeAll "bundle.js").
Proof.
  apply (updateBackend_stores_any_status (SampleHost.http_Get 404)
           SampleHost.json_Decode false SampleHost.zstd_EncodeAll
           SampleHost.sha256_Sum256 (fun _ => false) (fun _ _ => Updater.Written)
           (fun _ => false) false (fun _ _ => false) SampleHost.filepath_Rel
           "assets" "." true SampleHost.w0
           {| Updater.TagName := "2.19.1";
              Updater.Assets :=
                [ {| Updater.Name := "sub-store.min.js";
                     Updater.BrowserDownloadURL := "https://github.com/min" |};
                  {| Updater.Name := "sub-store.bundle.js";
                     Updater.BrowserDownloadURL := SampleHost.bundle |} ] |}
           404%Z "bundle.js").
  - intros d. apply SampleHost.pad_length.
  - reflexivity.
  - vm_compute. discriminate.
  - reflexivity.
  - reflexivity.
  - vm_compute. discriminate.
  - reflexivity.
Defined.

Lemma updateBackend_restores_cwd_witness :
  Updater.cwd (snd (SampleHost.updateBackend 200%Z SampleHost.w0))
  = Updater.cwd SampleHost.w0.
Proof.
  apply (updateBackend_restores_cwd (SampleHost.http_Get 200)
           SampleHost.json_Decode false SampleHost.zstd_EncodeAll
           SampleHost.sha256_Sum256 (fun _ => false) (fun _ _ => Updater.Written)
           (fun _ => false) false (fun _ _ => false) SampleHost.filepath_Rel
           "assets" "." true SampleHost.w0 "repo").
  - vm_compute. reflexivity.
  - reflexivity.
  - reflexivity.
  - vm_compute. reflexivity.
  - reflexivity.
Defined.

(** ** The start of [main] (main.go, lines 309-334) *)

Module Program.

(** The loop of lines 311-316 over the arguments after the program's
    name. *)
Fixpoint scan_push (args : list string) : bool :=
  match args with
  | [] => false
  | arg :: rest =>
      if String.eqb arg "--push" || String.eqb arg "-p" then true
      else scan_push rest
  end.

(** [os.Args[1:]] panics on an empty [os.Args]. *)
Definition push_flag (os_Args : list string) : option bool :=
  match os_Args with
  | [] => None
  | _ :: args => Some (scan_push args)
  end.

(** Line 327. *)
Definition preferred : string := "http://127.0.0.1:10808".

(** Lines 328-334: [os.Setenv], twice, for a proxy that is not empty. *)
Definition set_proxy_env (proxy : string) (env : gmap string string) :
    gmap string string :=
  if negb (String.eqb proxy "") then
    <["HTTPS_PROXY" := proxy]> (<["HTTP_PROXY" := proxy]> env)
  else env.

End Program.

(** X10. The push flag is set exactly when [--push] or [-p] is among the
    arguments after the program's name; the name itself is not looked
    at. *)
Theorem push_flag_iff prog args :
  Program.push_flag (prog :: args) = Some true
  <-> "--push" ∈ args \/ "-p" ∈ args.
Proof.
  simpl. induction args as [|arg args IH]; simpl.
  - split; [done | intros [H|H]; inversion H].
  - destruct (String.eqb arg "--push") eqn:E1; simpl.
    { apply String.eqb_eq in E1. subst arg. split; [intros _; left; left | done]. }
    destruct (String.eqb arg "-p") eqn:E2; simpl.
    { apply String.eqb_eq in E2. subst arg. split; [intros _; right; left | done]. }
    apply String.eqb_neq in E1, E2. rewrite IH.
    rewrite !elem_of_cons. split; [tauto|].
    intros [[H|H]|[H|H]]; try tauto; congruence.
Qed.

(** X11. Whatever the prober answers and however the goroutines are
    scheduled, [main] sets [HTTP_PROXY] and [HTTPS_PROXY] together, to
    the same address, one of [commonProxies] that passed the probe; it
    leaves the environment as it was only when the selection returned
    the empty string, and then no address of the list is available. *)
Theorem main_proxy_env (isProxyAvailable : string -> bool) sched s r env :
  Selector.run isProxyAvailable Program.preferred Sample.commonProxies sched
    Selector.init = Some s ->
  Selector.returned s = Some r ->
  let env' := Program.set_proxy_env r env in
  (r ∈ Sample.commonProxies /\ isProxyAvailable r = true
   /\ env' !! "HTTP_PROXY" = Some r /\ env' !! "HTTPS_PROXY" = Some r)
  \/ (r = "" /\ env' = env
      /\ forall c, c ∈ Sample.commonProxies -> isProxyAvailable c = false).
Proof.
  intros H R env'.
  assert (Hset : r <> "" -> env' !! "HTTP_PROXY" = Some r
                           /\ env' !! "HTTPS_PROXY" = Some r).
  { intros Hr. unfold env', Program.set_proxy_env.
    apply String.eqb_neq in Hr. rewrite Hr. simpl. split.
    - rewrite lookup_insert_ne by done. apply lookup_insert_eq.
    - apply lookup_insert_eq. }
  assert (Hne : forall c, c ∈ Sample.commonProxies -> c <> "").
  { intros c Hc ->. unfold Sample.commonProxies in Hc.
    repeat (apply elem_of_cons in Hc as [Hc|Hc]; [discriminate Hc|]).
    inversion Hc. }
  destruct (Selector.sel_run_result _ _ _ _ _ _ H R)
    as [(W & -> & _)|(W & [(Hin & Ha & _)|(-> & Hnone)])].
  - left. unfold Selector.wins in W. apply andb_prop in W as [_ W].
    assert (Hin : Program.preferred ∈ Sample.commonProxies).
    { unfold Program.preferred, Sample.commonProxies.
      do 4 apply list_elem_of_further. apply list_elem_of_here. }
    split; [exact Hin|]. split; [exact W|]. apply Hset. now apply Hne.
  - left. split; [exact Hin|]. split; [exact Ha|]. apply Hset. now apply Hne.
  - right. split; [reflexivity|]. split; [reflexivity | exact Hnone].
Qed.

(** The preferred address fails its second target, the six goroutines
    are started, and the first of them wins. *)
Definition main_schedule : list Selector.tid :=
  [ Selector.Main; Selector.Main; Selector.Main; Selector.Main; Selector.Main;
    Selector.Main; Selector.Main; Selector.Main;
    Selector.Go 0; Selector.Go 0; Selector.Main ].

Lemma main_proxy_env_witness :
  let r := "http://127.0.0.1:7890" in
  let env' := Program.set_proxy_env r ∅ in
  (r ∈ Sample.commonProxies /\ Sample.isProxyAvailable r = true
   /\ env' !! "HTTP_PROXY" = Some r /\ env' !! "HTTPS_PROXY" = Some r)
  \/ (r = "" /\ env' = ∅
      /\ forall c, c ∈ Sample.commonProxies -> Sample.isProxyAvailable c = false).
Proof.
  destruct (Sample.run_selector Program.preferred Sample.commonProxies main_schedule)
    as [s|] eqn:E.
  - assert (R : Selector.returned s = Some "http://127.0.0.1:7890")
      by (vm_compute in E; injection E as <-; reflexivity).
    exact (main_proxy_env Sample.isProxyAvailable main_schedule s
             "http://127.0.0.1:7890" ∅ E R).
  - vm_compute in E. discriminate E.
Defined.

(** ** The goroutines of the prober and of the selector *)

Section ProberFacts.
Variable URL : Type.
Variable url_Parse : string -> option URL.
Variable Get : URL -> string -> Prober.response.
Variable targets : list Prober.testURL.

(** X12. In every state a call of [isProxyAvailable] can reach, each
    goroutine that has not finished can take its next step: its send
    finds room in the channel, which is not yet closed, and its
    [wg.Done] finds a positive counter.  No goroutine of the prober
    blocks or panics, whatever the schedule and the answers. *)
Theorem isProxyAvailable_goroutines_never_stuck proxy s i g :
  Prober.Reach URL url_Parse Get targets proxy s ->
  Prober.pool s !! i = Some g ->
  Prober.pc g <> Prober.PExit ->
  exists s', Prober.step URL url_Parse Get targets proxy (Prober.Go i) s = Some s'.
Proof.
  intros [sched H] Hi Hp.
  apply Prober.run_init in H as [[_ ->]|[(_ & _ & ->)|(u & _ & I)]];
    [simpl in Hi; done | simpl in Hi; done |].
  assert (Hin : g ∈ Prober.pool s) by (eapply list_elem_of_lookup_2; eauto).
  assert (Hl : Prober.live g = 1).
  { unfold Prober.live. destruct (Prober.pc g); done. }
  pose proof (Prober.busy_not_quiet URL Get targets u s i g I Hi Hl) as Hq.
  simpl. unfold Prober.step_go. rewrite Hi.
  destruct g as [tgt exp k]. simpl in Hp. destruct k as [|b| |]; [| | |done].
  - rewrite (Prober.i_client URL Get targets u s I). eauto.
  - assert (Hcl : Prober.closed s = false).
    { destruct (Prober.closed s) eqn:E; [|reflexivity].
      rewrite (Prober.i_closed URL Get targets u s I E) in Hq. done. }
    assert (Hlen : length (Prober.results s) < length targets).
    { destruct (Prober.i_results URL Get targets u s I) as [consumed [Id1 _]].
      assert (length (Prober.results s) <= length (Prober.collected s)).
      { rewrite <- (length_fmap snd (Prober.collected s)), Id1, length_app. lia. }
      pose proof (total_lt_length Prober.sent (Prober.pool s) _
                    ltac:(intros [? ? []]; unfold Prober.sent; simpl; lia)
                    Hin eq_refl) as Hs.
      rewrite <- (Prober.i_collen URL Get targets u s I) in Hs.
      rewrite <- (Prober.i_spawn URL Get targets u s I), length_app, length_fmap.
      lia. }
    apply Nat.ltb_lt in Hlen. rewrite Hlen, Hcl. simpl. eauto.
  - assert (Hw : 0 < Prober.wg s).
    { rewrite (Prober.i_wg URL Get targets u s I).
      eapply total_pos; [exact Hin | rewrite Hl; lia]. }
    destruct (Prober.wg s); [lia | eauto].
Qed.

End ProberFacts.

Section SelectorFacts.
Variable isProxyAvailable : string -> bool.
Variable configProxy : string.
Variable candidates : list string.

Local Abbreviation sstep := (Selector.step isProxyAvailable configProxy candidates).
Local Abbreviation srun := (Selector.run isProxyAvailable configProxy candidates).
Local Abbreviation sReach := (Selector.Reach isProxyAvailable configProxy candidates).
Local Abbreviation sInv :=
  (Selector.SInv isProxyAvailable candidates (Selector.pre configProxy)).
Local Abbreviation swins := (Selector.wins isProxyAvailable configProxy).

Lemma sel_go_enabled s i g :
  sInv s -> Selector.pool s !! i = Some g -> Selector.pc g <> Selector.CExit ->
  exists s', sstep (Selector.Go i) s = Some s'.
Proof.
  intros I Hi Hp.
  assert (Hl : Selector.live g = 1).
  { unfold Selector.live. destruct (Selector.pc g); done. }
  destruct (Selector.sel_busy _ _ _ s i g I Hi Hl) as (Hw & Hc & _).
  simpl. unfold Selector.step_go. rewrite Hi.
  destruct g as [c k]. simpl in Hp. destruct k; [| | |done].
  - eauto.
  - rewrite Hc. eauto.
  - destruct (Selector.wg s); [lia | eauto].
Qed.

(** X13. In every state a call of [findAvailableProxy] can reach, each
    candidate's goroutine that has not finished can take its next step,
    also after the function has returned: the select never meets a
    closed channel and never waits, and [wg.Done] finds a positive
    counter. *)
Theorem findAvailableProxy_goroutines_never_stuck s i g :
  Selector.Reach isProxyAvailable configProxy candidates s ->
  Selector.pool s !! i = Some g ->
  Selector.pc g <> Selector.CExit ->
  exists s',
    Selector.step isProxyAvailable configProxy candidates (Selector.Go i) s = Some s'.
Proof.
  intros [sched H] Hi Hp.
  apply Selector.sel_run_init in H as [[_ ->]|[(_ & _ & ->)|(_ & I)]];
    [simpl in Hi; done | simpl in Hi; done |].
  eapply sel_go_enabled; eauto.
Qed.

Lemma sel_quiescent s :
  sInv s -> (forall t, sstep t s = None) ->
  Forall (fun g => Selector.pc g = Selector.CExit) (Selector.pool s)
  /\ Selector.p <$> Selector.pool s = candidates
  /\ Selector.waiter s = Selector.WExit
  /\ Selector.closed s = true
  /\ Selector.wg s = 0.
Proof.
  intros I Hstuck.
  assert (Hret : exists r, Selector.main s = Selector.MReturn r).
  { destruct (Selector.returned s) as [r|] eqn:R.
    - unfold Selector.returned in R. destruct (Selector.main s); try done. eauto.
    - destruct (Selector.SInv_progress _ _ _ s I R) as (t & s' & Hs).
      now rewrite Hstuck in Hs. }
  destruct Hret as [r Hm].
  assert (Hall : Forall (fun g => Selector.pc g = Selector.CExit) (Selector.pool s)).
  { apply Forall_lookup. intros i g Hi.
    destruct (Selector.pc g) eqn:Hn; [| | |reflexivity];
      (destruct (sel_go_enabled s i g I Hi) as [s' Hs];
       [now rewrite Hn | now rewrite Hstuck in Hs]). }
  assert (Hwg : Selector.wg s = 0).
  { rewrite (Selector.j_wg _ _ _ s I).
    clear -Hall. induction Hall as [|g l Hg _ IH]; simpl; [reflexivity|].
    unfold Selector.live at 1. now rewrite Hg, IH. }
  assert (Hw : Selector.waiter s = Selector.WExit).
  { pose proof (Hstuck Selector.Waiter) as Hs. simpl in Hs.
    unfold Selector.step_waiter in Hs.
    destruct (Selector.waiter s) eqn:Ew; [| | done | reflexivity].
    - pose proof (Selector.j_wnone _ _ _ s I Ew) as Hsp. now rewrite Hm in Hsp.
    - now rewrite Hwg in Hs. }
  split; [exact Hall|]. split.
  { pose proof (Selector.j_spawn _ _ _ s I) as Hs. rewrite Hm in Hs. simpl in Hs.
    now rewrite app_nil_r in Hs. }
  split; [exact Hw|]. split; [|exact Hwg].
  now apply (Selector.j_wexit _ _ _ s I).
Qed.

(** X14. When nothing of a call of [findAvailableProxy] can move any
    more, the function has returned and no goroutine is left: every
    candidate's goroutine has run to its end, and, when the candidates
    were raced, there is one for each of them, the closing goroutine is
    gone too and the channel is closed. *)
Theorem findAvailableProxy_no_leak s :
  Selector.Reach isProxyAvailable configProxy candidates s ->
  (forall t, Selector.step isProxyAvailable configProxy candidates t s = None) ->
  (exists r, Selector.returned s = Some r)
  /\ Forall (fun g => Selector.pc g = Selector.CExit) (Selector.pool s)
  /\ (Selector.wins isProxyAvailable configProxy = false ->
      Selector.p <$> Selector.pool s = candidates
      /\ Selector.waiter s = Selector.WExit
      /\ Selector.closed s = true
      /\ Selector.wg s = 0).
Proof.
  intros [sched H] Hstuck.
  apply Selector.sel_run_init in H as [[_ ->]|[(W & _ & ->)|(W & I)]].
  - specialize (Hstuck Selector.Main). simpl in Hstuck.
    now rewrite Selector.sel_first_step in Hstuck.
  - split; [now exists configProxy|]. split; [constructor|].
    intros W'. now rewrite W in W'.
  - destruct (sel_quiescent s I Hstuck) as (Hall & Hp & Hw & Hc & Hn).
    split; [|split; [exact Hall | done]].
    destruct (Selector.returned s) as [r|] eqn:R; [eauto|].
    destruct (Selector.SInv_progress _ _ _ s I R) as (t & s' & Hs).
    now rewrite Hstuck in Hs.
Qed.

(** The fixed scheduler, not stopping at the return. *)
Fixpoint drain (fuel : nat) (s : Selector.state) : Selector.state :=
  match fuel with
  | 0 => s
  | S fuel' =>
      match Selector.sched_step isProxyAvailable configProxy candidates s with
      | Some s' => drain fuel' s'
      | None => s
      end
  end.

Lemma drain_run : forall fuel s, exists k, srun k s = Some (drain fuel s).
Proof.
  induction fuel as [|fuel IH]; simpl; intros s; [now exists []|].
  destruct (Selector.sched_step _ _ _ s) as [s1|] eqn:E; [|now exists []].
  apply Selector.sel_sched_step_Some in E as [t E]. destruct (IH s1) as [k Hk].
  exists (t :: k). simpl. now rewrite E.
Qed.

Lemma drain_stuck : forall fuel s,
  Selector.measure candidates s <= fuel ->
  forall t, sstep t (drain fuel s) = None.
Proof.
  induction fuel as [|fuel IH]; simpl; intros s Hm t.
  - destruct (sstep t s) as [s'|] eqn:E; [|reflexivity].
    apply Selector.sel_step_measure in E. lia.
  - destruct (Selector.sched_step _ _ _ s) as [s1|] eqn:E.
    + apply IH. apply Selector.sel_sched_step_Some in E as [t' E].
      apply Selector.sel_step_measure in E. lia.
    + now apply Selector.sel_sched_step_None.
Qed.

(** X15. The goroutines of [findAvailableProxy] always wind down: no
    run has more steps than the measure of the first state, and every
    run can be carried on to a state in which nothing is left to
    move. *)
Theorem findAvailableProxy_winds_down sched s :
  Selector.run isProxyAvailable configProxy candidates sched Selector.init = Some s ->
  length sched <= Selector.measure candidates Selector.init
  /\ exists sched' s',
       Selector.run isProxyAvailable configProxy candidates (sched ++ sched')
         Selector.init = Some s'
       /\ forall t, Selector.step isProxyAvailable configProxy candidates t s' = None.
Proof.
  intros H. split.
  - pose proof (Selector.sel_run_measure _ _ _ _ _ _ H). lia.
  - destruct (drain_run (Selector.measure candidates s) s) as [k Hk].
    exists k, (drain (Selector.measure candidates s) s). split.
    + rewrite Selector.sel_run_app, H. exact Hk.
    + now apply drain_stuck.
Qed.

(** The loop of lines 77-88 run to its end before any goroutine moves. *)
Lemma sel_spawn_all : forall rest pl n pr,
  srun (replicate (length rest) Selector.Main)
    (Selector.State (Selector.MSpawn rest) pl Selector.WNone n [] false pr)
  = Some (Selector.State (Selector.MSpawn [])
            (pl ++ ((fun c => Selector.Cand c Selector.CProbe) <$> rest))
            Selector.WNone (n + length rest) [] false pr).
Proof.
  induction rest as [|c rest IH]; intros pl n pr.
  - simpl. now rewrite app_nil_r, Nat.add_0_r.
  - change (replicate (length (c :: rest)) Selector.Main)
      with (Selector.Main :: replicate (length rest) Selector.Main).
    cbn [Selector.run Selector.step]. unfold Selector.step_main at 1.
    cbn [Selector.main Selector.pool Selector.waiter Selector.wg
         Selector.resultCh Selector.closed Selector.probes].
    rewrite IH. rewrite <- app_assoc. simpl.
    now rewrite Nat.add_succ_r.
Qed.

(** X16. Which candidate is returned is up to the schedule: when the
    preferred address does not win, every available candidate is the
    result of some run, in which the function returns after the probe of
    that candidate alone. *)
Theorem findAvailableProxy_any_available_can_win i c :
  Selector.wins isProxyAvailable configProxy = false ->
  candidates !! i = Some c ->
  isProxyAvailable c = true ->
  exists sched s,
    Selector.run isProxyAvailable configProxy candidates sched Selector.init = Some s
    /\ Selector.returned s = Some c
    /\ Selector.probes s = Selector.pre configProxy ++ [(Selector.Candidate i, c)].
Proof.
  intros W Hi Ha.
  set (spawned := (fun c => Selector.Cand c Selector.CProbe) <$> candidates).
  assert (Hl : spawned !! i = Some (Selector.Cand c Selector.CProbe)).
  { unfold spawned. now rewrite list_lookup_fmap, Hi. }
  assert (Hlt : i < length spawned) by (eapply lookup_lt_Some; eauto).
  exists (Selector.Main :: replicate (length candidates) Selector.Main
          ++ [Selector.Main; Selector.Go i; Selector.Go i; Selector.Main]).
  eexists. split; [|split].
  - cbn [Selector.run Selector.step]. rewrite Selector.sel_first_step, W.
    unfold Selector.start. rewrite Selector.sel_run_app, sel_spawn_all.
    rewrite app_nil_l. fold spawned.
    cbn [Selector.run Selector.step]. unfold Selector.step_main at 1.
    cbn [Selector.main Selector.pool Selector.waiter Selector.wg
         Selector.resultCh Selector.closed Selector.probes].
    unfold Selector.step_go at 1.
    cbn [Selector.main Selector.pool Selector.waiter Selector.wg
         Selector.resultCh Selector.closed Selector.probes].
    rewrite Hl, Ha.
    unfold Selector.step_go at 1.
    cbn [Selector.main Selector.pool Selector.waiter Selector.wg
         Selector.resultCh Selector.closed Selector.probes].
    rewrite (list_lookup_insert_eq spawned i _ Hlt).
    cbn [length Nat.ltb Nat.leb app].
    unfold Selector.step_main at 1.
    cbn [Selector.main Selector.pool Selector.waiter Selector.wg
         Selector.resultCh Selector.closed Selector.probes].
    reflexivity.
  - reflexivity.
  - reflexivity.
Qed.

(** Each call site is in the log at most once, and a candidate's site
    only once its goroutine is past the probe. *)
Definition once (s : Selector.state) : Prop :=
  NoDup (fst <$> Selector.probes s)
  /\ forall i, Selector.Candidate i ∈ fst <$> Selector.probes s ->
       exists g, Selector.pool s !! i = Some g /\ Selector.pc g <> Selector.CProbe.

Lemma once_insert s i g g' pl :
  once s -> Selector.pool s !! i = Some g -> Selector.pc g' <> Selector.CProbe ->
  pl = <[i := g']> (Selector.pool s) ->
  forall j, Selector.Candidate j ∈ fst <$> Selector.probes s ->
    exists h, pl !! j = Some h /\ Selector.pc h <> Selector.CProbe.
Proof.
  intros [_ O] Hi Hg -> j Hj.
  destruct (decide (i = j)) as [<-|Hn].
  - exists g'. split; [|exact Hg]. apply list_lookup_insert_eq.
    eapply lookup_lt_Some; eauto.
  - destruct (O j Hj) as (h & Hh & Hp). exists h.
    split; [|exact Hp]. now rewrite list_lookup_insert_ne.
Qed.

Lemma once_step s s' t :
  Selector.main s <> Selector.MPreferred ->
  once s -> sstep t s = Some s' -> once s'.
Proof.
  intros Hm O H. pose proof O as [N C].
  destruct t as [|i|]; simpl in H.
  - unfold Selector.step_main in H.
    destruct (Selector.main s) as [|[|c rest]| |r]; try done.
    + now injection H as <-.
    + injection H as <-. split; [exact N|]. simpl. intros j Hj.
      destruct (C j Hj) as (g & Hg & Hp). exists g.
      split; [now apply lookup_app_l_Some | exact Hp].
    + destruct (Selector.resultCh s) as [|v rest].
      * destruct (Selector.closed s); [|done]. now injection H as <-.
      * now injection H as <-.
  - unfold Selector.step_go in H.
    destruct (Selector.pool s !! i) as [[c k]|] eqn:Hi; [|done].
    destruct k; [| | |done].
    + injection H as <-. unfold once. simpl. rewrite fmap_app. simpl. split.
      * apply NoDup_app. split; [exact N|]. split; [|apply NoDup_singleton].
        intros x Hx Hx'. apply list_elem_of_singleton in Hx'. subst x.
        destruct (C i Hx) as (g & Hg & Hp). rewrite Hi in Hg.
        injection Hg as <-. done.
      * intros j Hj. apply elem_of_app in Hj as [Hj|Hj].
        -- eapply once_insert; eauto. simpl. now destruct (isProxyAvailable c).
        -- apply list_elem_of_singleton in Hj. injection Hj as ->.
           eexists. split.
           ++ apply list_lookup_insert_eq. eapply lookup_lt_Some; eauto.
           ++ simpl. now destruct (isProxyAvailable c).
    + destruct (Selector.closed s); [done|]. injection H as <-.
      split; [exact N|]. simpl. eapply once_insert; eauto. done.
    + destruct (Selector.wg s); [done|]. injection H as <-.
      split; [exact N|]. simpl. eapply once_insert; eauto. done.
  - unfold Selector.step_waiter in H. destruct (Selector.waiter s); try done.
    + destruct (Selector.wg s =? 0); [|done]. now injection H as <-.
    + now injection H as <-.
Qed.

Lemma once_run sched : forall s s',
  sInv s -> once s -> srun sched s = Some s' -> once s'.
Proof.
  induction sched as [|t sched IH]; simpl; intros s s' I O H.
  - now injection H as <-.
  - destruct (sstep t s) as [s1|] eqn:E; [|done].
    apply (IH s1); [eapply Selector.SInv_step; eauto | | exact H].
    eapply once_step; [|exact O|exact E]. apply (Selector.j_main _ _ _ s I).
Qed.

Lemma once_start : once (Selector.start configProxy candidates).
Proof.
  unfold once, Selector.start, Selector.pre. simpl.
  destruct (String.eqb configProxy ""); simpl.
  - split; [constructor | intros i Hi; inversion Hi].
  - split; [apply NoDup_singleton|].
    intros i Hi. apply list_elem_of_singleton in Hi. discriminate Hi.
Qed.

(** X17. However the goroutines are scheduled, [findAvailableProxy]
    calls the prober at most once at step 1 and at most once in each
    candidate's goroutine: no call site is in the log twice, and there
    are never more calls than candidates and one. *)
Theorem findAvailableProxy_probes_once s :
  Selector.Reach isProxyAvailable configProxy candidates s ->
  NoDup (fst <$> Selector.probes s)
  /\ length (Selector.probes s) <= S (length candidates).
Proof.
  intros [sched H].
  assert (Hbound : forall l : list (Selector.site * string),
            NoDup (fst <$> l) ->
            Forall (fun e => e ∈ Selector.pre configProxy
                             \/ exists i c, e = (Selector.Candidate i, c)
                                           /\ candidates !! i = Some c) l ->
            length l <= S (length candidates)).
  { intros l N F.
    assert (Hle : length (fst <$> l)
                  <= length (Selector.Preferred
                             :: (Selector.Candidate <$> seq 0 (length candidates)))).
    2: { rewrite length_fmap in Hle. simpl in Hle.
         now rewrite length_fmap, length_seq in Hle. }
    apply submseteq_length, NoDup_submseteq; [exact N|].
    intros x Hx. apply list_elem_of_fmap in Hx as (e & -> & He).
    rewrite Forall_forall in F. destruct (F e He) as [Hp|(i & c & -> & Hc)].
    - unfold Selector.pre in Hp. destruct (String.eqb configProxy "").
      + inversion Hp.
      + apply list_elem_of_singleton in Hp. subst e. simpl. left.
    - simpl. right. apply list_elem_of_fmap. exists i. split; [reflexivity|].
      apply elem_of_seq. apply lookup_lt_Some in Hc. lia. }
  pose proof H as H0.
  apply Selector.sel_run_init in H as [[_ ->]|[(_ & _ & ->)|(_ & I)]].
  - simpl. split; [constructor | lia].
  - simpl. split; [apply NoDup_singleton | lia].
  - assert (O : once s).
    { destruct sched as [|t sched]; simpl in H0.
      - injection H0 as <-. now destruct (Selector.j_main _ _ _ _ I).
      - destruct t; simpl in H0; try done.
        rewrite Selector.sel_first_step in H0.
        destruct swins eqn:W.
        + destruct sched as [|t sched]; simpl in H0.
          * injection H0 as <-. unfold once. simpl.
            split; [apply NoDup_singleton|].
            intros i Hi. apply list_elem_of_singleton in Hi. discriminate Hi.
          * destruct t; simpl in H0; done.
        + eapply once_run; [apply Selector.SInv_start | apply once_start | exact H0]. }
    destruct O as [N _]. split; [exact N|].
    apply Hbound; [exact N|]. apply (Selector.j_log _ _ _ s I).
Qed.

End SelectorFacts.

(** ** Runs of the sample machine *)

(** The prober on port 7890 once both goroutines are started. *)
Definition probing : Prober.state string :=
  Eval vm_compute in
    default (Prober.init string)
      (Sample.run_prober "http://127.0.0.1:7890"
         [Prober.Main; Prober.Main; Prober.Main]).

(** The selector of [main] after [main_schedule]: it has returned, and
    five goroutines have not started their probe. *)
Definition returned_early : Selector.state :=
  Eval vm_compute in
    default Selector.init
      (Sample.run_selector Program.preferred Sample.commonProxies main_schedule).

Lemma isProxyAvailable_goroutines_never_stuck_witness :
  exists s',
    Prober.step string Sample.url_Parse Sample.Get Prober.testURLs
      "http://127.0.0.1:7890" (Prober.Go 0) probing = Some s'.
Proof.
  apply (isProxyAvailable_goroutines_never_stuck string Sample.url_Parse Sample.Get
           Prober.testURLs "http://127.0.0.1:7890" probing 0
           (Prober.Goroutine "https://www.google.com/generate_204" 204 Prober.PGet)).
  - exists [Prober.Main; Prober.Main; Prober.Main]. vm_compute. reflexivity.
  - reflexivity.
  - discriminate.
Defined.

Lemma findAvailableProxy_goroutines_never_stuck_witness :
  exists s',
    Selector.step Sample.isProxyAvailable Program.preferred Sample.commonProxies
      (Selector.Go 1) returned_early = Some s'.
Proof.
  apply (findAvailableProxy_goroutines_never_stuck Sample.isProxyAvailable
           Program.preferred Sample.commonProxies returned_early 1
           (Selector.Cand "http://127.0.0.1:7891" Selector.CProbe)).
  - exists main_schedule. vm_compute. reflexivity.
  - reflexivity.
  - discriminate.
Defined.

Lemma findAvailableProxy_no_leak_witness :
  let s := drain Sample.isProxyAvailable Program.preferred Sample.commonProxies
             40 Selector.init in
  (exists r, Selector.returned s = Some r)
  /\ Forall (fun g => Selector.pc g = Selector.CExit) (Selector.pool s)
  /\ (Selector.wins Sample.isProxyAvailable Program.preferred = false ->
      Selector.p <$> Selector.pool s = Sample.commonProxies
      /\ Selector.waiter s = Selector.WExit
      /\ Selector.closed s = true
      /\ Selector.wg s = 0).
Proof.
  apply (findAvailableProxy_no_leak Sample.isProxyAvailable Program.preferred
           Sample.commonProxies).
  - apply drain_run.
  - apply drain_stuck. vm_compute. lia.
Defined.

Lemma findAvailableProxy_winds_down_witness :
  length main_schedule
    <= Selector.measure Sample.commonProxies Selector.init
  /\ exists sched' s',
       Sample.run_selector Program.preferred Sample.commonProxies
         (main_schedule ++ sched') = Some s'
       /\ forall t, Selector.step Sample.isProxyAvailable Program.preferred
                      Sample.commonProxies t s' = None.
Proof.
  apply (findAvailableProxy_winds_down Sample.isProxyAvailable Program.preferred
           Sample.commonProxies main_schedule returned_early).
  vm_compute. reflexivity.
Defined.

Lemma findAvailableProxy_any_available_can_win_witness :
  exists sched s,
    Sample.run_selector Program.preferred Sample.commonProxies sched = Some s
    /\ Selector.returned s = Some "http://127.0.0.1:7890"
    /\ Selector.probes s
       = Selector.pre Program.preferred
         ++ [(Selector.Candidate 0, "http://127.0.0.1:7890")].
Proof.
  apply (findAvailableProxy_any_available_can_win Sample.isProxyAvailable
           Program.preferred Sample.commonProxies 0 "http://127.0.0.1:7890").
  - vm_compute. reflexivity.
  - reflexivity.
  - vm_compute. reflexivity.
Defined.

Lemma findAvailableProxy_probes_once_witness :
  NoDup (fst <$> Selector.probes returned_early)
  /\ length (Selector.probes returned_early) <= S (length Sample.commonProxies).
Proof.
  apply (findAvailableProxy_probes_once Sample.isProxyAvailable Program.preferred
           Sample.commonProxies returned_early).
  exists main_schedule. vm_compute. reflexivity.
Defined.

(** The push is refused. *)
Definition push_refused (ran : list (list string)) (args : list string) : bool :=
  String.eqb (default "" (args !! 1)) "push".

Lemma updateBackend_unchanged_unless_new_witness :
  exists release jsData,
    Updater.fetchLatestRelease (SampleHost.http_Get 200) SampleHost.json_Decode
      "sub-store-org/Sub-Store" = Some release
    /\ Updater.downloadFile (SampleHost.http_Get 200)
         (Updater.find_asset "sub-store.bundle.js" (Updater.Assets release))
       = Some jsData
    /\ false = false
    /\ Updater.fileHash SampleHost.sha256_Sum256 (fun _ => false) SampleHost.w0
         (backendPath "assets")
       <> Updater.Hash (SampleHost.sha256_Sum256 (SampleHost.zstd_EncodeAll jsData)).
Proof.
  apply (updateBackend_unchanged_unless_new (SampleHost.http_Get 200)
           SampleHost.json_Decode false SampleHost.zstd_EncodeAll
           SampleHost.sha256_Sum256 (fun _ => false) (fun _ _ => Updater.Written)
           (fun _ => false) false (fun _ _ => false) SampleHost.filepath_Rel
           "assets" "." true SampleHost.w0).
  intros E. apply (f_equal Updater.ran) in E. vm_compute in E. discriminate E.
Defined.

Lemma updateBackend_failed_commit_not_retried_witness :
  let run := Updater.updateBackend (SampleHost.http_Get 200) SampleHost.json_Decode
               false SampleHost.zstd_EncodeAll SampleHost.sha256_Sum256
               (fun _ => false) (fun _ _ => Updater.Written) (fun _ => false)
               false push_refused SampleHost.filepath_Rel "assets" "." true in
  let w1 := snd (run SampleHost.w0) in
  let w2 := Updater.World (Updater.files w1) (Updater.cwd SampleHost.w0)
              (Updater.ran w1) in
  fst (run SampleHost.w0) = Updater.Fatal (Updater.GitFailed "git 推送")
  /\ run w2 = (Updater.Returned, w2).
Proof.
  split; [vm_compute; reflexivity|].
  apply (updateBackend_failed_commit_not_retried (SampleHost.http_Get 200)
           SampleHost.json_Decode false SampleHost.zstd_EncodeAll
           SampleHost.sha256_Sum256 (fun _ => false) (fun _ _ => Updater.Written)
           (fun _ => false) false push_refused SampleHost.filepath_Rel
           "assets" "." true SampleHost.w0).
  - right. eexists. vm_compute. reflexivity.
  - reflexivity.
Defined.

(** ** Extraction of an archive that stays inside *)

(** X21. The guard turns away no entry that stays inside the temporary
    directory: when every entry's path lies within it and the operating
    system refuses nothing, the loop runs to its end, and every file
    entry has been created at its path and its content copied there. *)
Theorem updateFrontend_extracts_safe_archive fails files :
  (forall f, f ∈ files ->
     Frontend.within Frontend.tmpDir (Frontend.Join Frontend.tmpDir (Frontend.Name f))
     /\ Frontend.openErr f = false) ->
  (forall op, fails op = false) ->
  fst (Frontend.extract fails files) = Frontend.Done
  /\ forall f, f ∈ files -> Frontend.IsDir f = false ->
       Frontend.OpenFile (Frontend.Join Frontend.tmpDir (Frontend.Name f))
         ∈ snd (Frontend.extract fails files)
       /\ Frontend.Copy (Frontend.Join Frontend.tmpDir (Frontend.Name f))
            (Frontend.content f)
         ∈ snd (Frontend.extract fails files).
Proof.
  intros Hsafe Hok. induction files as [|g files IH]; simpl.
  - split; [reflexivity | intros f Hf; inversion Hf].
  - destruct IH as [IH1 IH2].
    { intros f Hf. apply Hsafe. now right. }
    destruct (Hsafe g) as [Hw Ho]; [now left|].
    apply Frontend.guard_within in Hw.
    unfold Frontend.extract_one. rewrite Hw, Ho, !Hok. simpl.
    destruct (Frontend.extract fails files) as [o ops]. simpl in *.
    destruct (Frontend.IsDir g) eqn:Hd; simpl.
    + split; [exact IH1|]. intros f Hf Hnd.
      apply elem_of_cons in Hf as [->|Hf]; [congruence|].
      destruct (IH2 f Hf Hnd) as [A B]. split; now right.
    + split; [exact IH1|]. intros f Hf Hnd.
      apply elem_of_cons in Hf as [->|Hf].
      * split; [right; left | right; right; left].
      * destruct (IH2 f Hf Hnd) as [A B].
        split; do 3 right; assumption.
Qed.

Definition dist_zip : list Frontend.zipFile :=
  [ Frontend.ZipFile "dist/" true "" false;
    Frontend.ZipFile "dist/assets/../index.html" false "<html></html>" false ].

Lemma updateFrontend_extracts_safe_archive_witness :
  fst (Frontend.extract (fun _ => false) dist_zip) = Frontend.Done
  /\ forall f, f ∈ dist_zip -> Frontend.IsDir f = false ->
       Frontend.OpenFile (Frontend.Join Frontend.tmpDir (Frontend.Name f))
         ∈ snd (Frontend.extract (fun _ => false) dist_zip)
       /\ Frontend.Copy (Frontend.Join Frontend.tmpDir (Frontend.Name f))
            (Frontend.content f)
         ∈ snd (Frontend.extract (fun _ => false) dist_zip).
Proof.
  apply (updateFrontend_extracts_safe_archive (fun _ => false) dist_zip).
  - intros f Hf. unfold dist_zip in Hf.
    repeat (apply elem_of_cons in Hf as [->|Hf];
            [split; [apply Frontend.guard_within; vm_compute|]; reflexivity|]).
    inversion Hf.
  - reflexivity.
Defined.
